(** * core-js-101, 05-objects-tasks.js: the CSS selector builder and the
      JSON helpers, embedded in Rocq.

    The selector chain ([NEWcssSelectorBuilder]) is a mutable object: its
    methods are modelled in a state-and-exception monad whose state is the
    object, so that a mutation made before a [throw] stays visible.  The
    facade ([cssSelectorBuilder]) owns the shared [combiner] array. *)

From Stdlib Require Import ZArith Lia.
From stdpp Require Import base option list sorting gmap strings.

(** ** Exceptions and the method monad *)

(** The exceptions the file can raise: [new Error(message)] from the
    selector chain, and the host's [SyntaxError] / [TypeError] raised by
    [JSON.parse] and [Object.setPrototypeOf]. *)
Inductive exn : Type :=
  | Error (message : string)
  | SyntaxError
  | TypeError.

Inductive completion (A : Type) : Type :=
  | Normal (a : A)
  | Throw (e : exn).
Arguments Normal {A} a.
Arguments Throw {A} e.

(** A method of an object of state [S]: it returns or throws, and leaves
    the object in the state reached at that point. *)
Definition method (S A : Type) : Type := S -> completion A * S.

#[global] Instance method_ret (S : Type) : MRet (method S) :=
  fun A a s => (Normal a, s).

#[global] Instance method_bind (S : Type) : MBind (method S) :=
  fun A B f m s =>
    match m s with
    | (Normal a, s') => f a s'
    | (Throw e, s') => (Throw e, s')
    end.

Definition throw {S A : Type} (e : exn) : method S A := fun s => (Throw e, s).
Definition get {S : Type} : method S S := fun s => (Normal s, s).
Definition put {S : Type} (s : S) : method S unit := fun _ => (Normal tt, s).

(** ** Host operations used by the chain *)

(** [Array.prototype.indexOf] over an array of strings, searching for a
    value that is a string or [undefined] ([None]); strict equality, first
    match, [-1] when there is none. *)
Fixpoint indexOf_from (l : list string) (x : string) (i : Z) : Z :=
  match l with
  | [] => (-1)%Z
  | y :: l' => if decide (y = x) then i else indexOf_from l' x (i + 1)%Z
  end.

Definition indexOf (l : list string) (x : option string) : Z :=
  match x with
  | Some s => indexOf_from l s 0%Z
  | None => (-1)%Z
  end.

(** Truthiness of [o[k]] where the property is absent ([undefined]) or a
    string: only a non-empty string is truthy. *)
Definition truthy (v : option string) : bool :=
  match v with
  | Some s => negb (String.eqb s "")
  | None => false
  end.

(** [Object.values(o)] for an object whose keys are array indices: the
    values in ascending key order. *)
Definition Object_values (o : gmap nat string) : list string :=
  omap (fun k => o !! k) (merge_sort (≤) (elements (dom o))).

(** [Array.prototype.join(sep)] on an array of strings. *)
Definition join (sep : string) (l : list string) : string :=
  String.concat sep l.

(** ** class NEWcssSelectorBuilder *)

Record NEWcssSelectorBuilder : Type := mkChain {
  selector : gmap nat string;
  order : list string
}.

Module Chain.

(** [constructor()] *)
Definition new : NEWcssSelectorBuilder := mkChain ∅ [].

Definition order_message : string :=
  "Selector parts should be arranged in the following order: element, id, class, attribute, pseudo-class, pseudo-element".

Definition duplicate_message : string :=
  "Element, id and pseudo-element should not occur more then one time inside the selector".

Definition check_list : list string :=
  ["element"; "id"; "class"; "attr"; "pseudoClass"; "pseudoElement"].

(** [this.selector[k] = v] and [this.order.push(v)] *)
Definition set_selector (k : nat) (v : string) : method NEWcssSelectorBuilder unit :=
  fun this => (Normal tt, mkChain (<[k := v]> (selector this)) (order this)).

Definition push_order (v : string) : method NEWcssSelectorBuilder unit :=
  fun this => (Normal tt, mkChain (selector this) (order this ++ [v])).

Definition check (value : string) : method NEWcssSelectorBuilder unit :=
  this ← get;
  let prev := last (order this) in
  let indexPrev := indexOf check_list prev in
  let indexCurrent := indexOf check_list (Some value) in
  (if (0 <=? indexPrev)%Z && (indexCurrent <? indexPrev)%Z
   then throw (Error order_message)
   else mret tt) ;;
  if (indexPrev <? indexCurrent)%Z then push_order value else mret tt.

(** [this.selector[k] += v]: string concatenation with the current
    value, which reads as the text undefined when the key is absent. *)
Definition append_selector (k : nat) (v : string) : method NEWcssSelectorBuilder unit :=
  fun this =>
    (Normal tt,
     mkChain (<[k := default "undefined" (selector this !! k) +:+ v]> (selector this))
             (order this)).

Definition element (value : string) : method NEWcssSelectorBuilder NEWcssSelectorBuilder :=
  check "element" ;;
  this ← get;
  (if negb (truthy (selector this !! 1))
   then set_selector 1 value
   else throw (Error duplicate_message)) ;;
  get.

Definition id (value : string) : method NEWcssSelectorBuilder NEWcssSelectorBuilder :=
  check "id" ;;
  this ← get;
  (if negb (truthy (selector this !! 2))
   then set_selector 2 ("#" +:+ value)
   else throw (Error duplicate_message)) ;;
  get.

Definition class (value : string) : method NEWcssSelectorBuilder NEWcssSelectorBuilder :=
  check "class" ;;
  this ← get;
  (if negb (truthy (selector this !! 3))
   then set_selector 3 ("." +:+ value)
   else append_selector 3 ("." +:+ value)) ;;
  get.

Definition attr (value : string) : method NEWcssSelectorBuilder NEWcssSelectorBuilder :=
  check "attr" ;;
  this ← get;
  (if negb (truthy (selector this !! 4))
   then set_selector 4 ("[" +:+ value +:+ "]")
   else append_selector 4 ("[" +:+ value +:+ "]")) ;;
  get.

Definition pseudoClass (value : string) : method NEWcssSelectorBuilder NEWcssSelectorBuilder :=
  check "pseudoClass" ;;
  this ← get;
  (if negb (truthy (selector this !! 5))
   then set_selector 5 (":" +:+ value)
   else append_selector 5 (":" +:+ value)) ;;
  get.

Definition pseudoElement (value : string) : method NEWcssSelectorBuilder NEWcssSelectorBuilder :=
  check "pseudoElement" ;;
  this ← get;
  (if negb (truthy (selector this !! 6))
   then set_selector 6 ("::" +:+ value)
   else throw (Error duplicate_message)) ;;
  get.

Definition stringify : method NEWcssSelectorBuilder string :=
  this ← get;
  let value := Object_values (selector this) in
  let value := join "" value in
  mret value.

End Chain.


(** ** const cssSelectorBuilder (the facade) *)

(** What [combine] can be handed as an operand: a selector chain, or the
    facade itself (the value an inner [combine] returns), which has no
    [selector] property. *)
Inductive operand : Type :=
  | OChain (c : NEWcssSelectorBuilder)
  | OFacade.

(** [x.selector]: the store of a chain, [undefined] on the facade. *)
Definition operand_selector (x : operand) : option (gmap nat string) :=
  match x with
  | OChain c => Some (selector c)
  | OFacade => None
  end.

Record cssSelectorBuilder : Type := mkFacade {
  combiner : list string
}.

Module Facade.

(** The object literal: [combiner: []]. *)
Definition initial : cssSelectorBuilder := mkFacade [].

(** The six entry points: [new NEWcssSelectorBuilder().m(value)]. *)
Definition element (value : string) : completion NEWcssSelectorBuilder :=
  fst (Chain.element value Chain.new).
Definition id (value : string) : completion NEWcssSelectorBuilder :=
  fst (Chain.id value Chain.new).
Definition class (value : string) : completion NEWcssSelectorBuilder :=
  fst (Chain.class value Chain.new).
Definition attr (value : string) : completion NEWcssSelectorBuilder :=
  fst (Chain.attr value Chain.new).
Definition pseudoClass (value : string) : completion NEWcssSelectorBuilder :=
  fst (Chain.pseudoClass value Chain.new).
Definition pseudoElement (value : string) : completion NEWcssSelectorBuilder :=
  fst (Chain.pseudoElement value Chain.new).

(** [this.combiner.unshift(...items)] *)
Definition unshift (items : list string) : method cssSelectorBuilder unit :=
  fun this => (Normal tt, mkFacade (items ++ combiner this)).

(** [combinator] is a string or [undefined] ([None]). *)
Definition combine (selector1 : operand) (combinator : option string)
    (selector2 : operand) : method cssSelectorBuilder operand :=
  let currentValue := [] in
  let currentValue :=
    match operand_selector selector1 with
    | Some s => let part1 := join "" (Object_values s) in currentValue ++ [part1]
    | None => currentValue
    end in
  let currentValue :=
    if truthy combinator then currentValue ++ option_list combinator
    else currentValue in
  let currentValue :=
    match operand_selector selector2 with
    | Some s => let part2 := join "" (Object_values s) in currentValue ++ [part2]
    | None => currentValue
    end in
  unshift currentValue ;;
  mret OFacade.

Definition stringify : method cssSelectorBuilder string :=
  this ← get;
  let arrRes := join " " (combiner this) in
  put (mkFacade []) ;;
  mret arrRes.

End Facade.

(** ** The host's JSON object and [Object.setPrototypeOf]

    [getJSON] and [fromJSON] only call the host.  [JSON.stringify],
    [JSON.parse] and [Object.setPrototypeOf] are modelled after ECMA-262 on
    the values a JSON text can carry.  Left out of the model: the values
    [JSON.stringify] skips or refuses (undefined, functions, symbols, cyclic
    objects, numbers that are not finite); [toJSON] methods that return such
    a value or throw; the rounding of a number literal to binary64; the rule
    that lists index-like keys of an object first. *)

(** A JavaScript string is a sequence of UTF-16 code units. *)
Definition units (s : string) : list N :=
  Ascii.N_of_ascii <$> String.list_ascii_of_string s.

(** A finite Number: minus zero, or the exact decimal [mant * 10 ^ expo].
    A binary64 is kept as the decimal [Number::toString] prints for it, its
    shortest decimal that rounds back to it; [JSON.parse] gives a literal
    its exact value, which is that decimal whenever the literal is such a
    shortest decimal, and the host's rounding of any other literal is
    outside the model.  The form with [expo <= 0] and, below zero, a
    mantissa that is no multiple of ten is the one the parser produces. *)
Inductive number : Type :=
  | mkNumber (mant expo : Z)
  | MinusZero.

Definition mant (x : number) : Z :=
  match x with
  | mkNumber m _ => m
  | MinusZero => 0%Z
  end.

Definition expo (x : number) : Z :=
  match x with
  | mkNumber _ e => e
  | MinusZero => 0%Z
  end.

(** The [[Prototype]] slot of an object: one of the two intrinsics every
    parsed value starts with, another object (by reference), or [null].
    Looking up [toJSON] from an object finds nothing callable on the
    intrinsics, on [null] and on an [ObjectRef]; on a [ToJSONRef] it finds a
    method, kept as the value the method returns when it is called on the
    object that holds the slot.

    The values are those [JSON.parse] can produce.  An object keeps its own
    enumerable fields in the order they are enumerated, which is the order
    they were created in; no two of them have the same name. *)
#[local] Unset Elimination Schemes.
Inductive prototype : Type :=
  | ObjectPrototype
  | ArrayPrototype
  | ObjectRef (r : N)
  | NullPrototype
  | ToJSONRef (r : N) (result : value)
with value : Type :=
  | VNull
  | VBool (b : bool)
  | VNumber (n : number)
  | VString (s : list N)
  | VArray (proto : prototype) (elements : list value)
  | VObject (proto : prototype) (fields : list (list N * value)).
#[local] Set Elimination Schemes.

Module JSON.

(** *** Numbers *)

Definition is_digit (c : N) : bool := (48 <=? c)%N && (c <=? 57)%N.

(** Decimal digits of a natural number, least significant first. *)
Fixpoint little_digits (fuel : nat) (n : N) : list N :=
  match fuel with
  | O => []
  | S fuel =>
      (n mod 10)%N :: (if (n <? 10)%N then [] else little_digits fuel (n / 10)%N)
  end.

(** The decimal representation of a natural number, as code units. *)
Definition digits (n : N) : list N :=
  rev ((fun d => (48 + d)%N) <$> little_digits (S (N.to_nat (N.log2 n))) n).

(** The value of a run of digit code units. *)
Definition digits_value (l : list N) : N :=
  fold_left (fun a c => (10 * a + (c - 48))%N) l 0%N.

Fixpoint strip_trailing_zeros (l : list N) : list N :=
  match l with
  | [] => []
  | d :: l' =>
      match strip_trailing_zeros l' with
      | [] => if (d =? 48)%N then [] else [d]
      | r => d :: r
      end
  end.

(** [Number::toString(x)] in radix 10, for a finite number. *)
Definition Number_toString (x : number) : list N :=
  if (mant x =? 0)%Z then units "0"
  else
    let sign := if (mant x <? 0)%Z then units "-" else [] in
    let ds := digits (Z.to_N (Z.abs (mant x))) in
    let s := strip_trailing_zeros ds in
    let k := Z.of_nat (length s) in
    let n := (Z.of_nat (length ds) + expo x)%Z in
    sign ++
    if ((k <=? n) && (n <=? 21))%Z then
      s ++ replicate (Z.to_nat (n - k)) 48%N
    else if ((0 <? n) && (n <=? 21))%Z then
      take (Z.to_nat n) s ++ units "." ++ drop (Z.to_nat n) s
    else if ((-6 <? n) && (n <=? 0))%Z then
      units "0." ++ replicate (Z.to_nat (- n)) 48%N ++ s
    else
      let e := (n - 1)%Z in
      let exponent :=
        units "e" ++ (if (e <? 0)%Z then units "-" else units "+")
        ++ digits (Z.to_N (Z.abs e)) in
      match s with
      | [] => []
      | [d] => d :: exponent
      | d :: s' => d :: units "." ++ s' ++ exponent
      end.

(** Longest prefix of digits, and what follows it. *)
Fixpoint span_digits (s : list N) : list N * list N :=
  match s with
  | c :: s' =>
      if is_digit c then let '(ds, r) := span_digits s' in (c :: ds, r)
      else ([], s)
  | [] => ([], [])
  end.

(** Removes factors of ten from a mantissa while the exponent is negative. *)
Fixpoint normalise (fuel : nat) (m e : Z) : number :=
  match fuel with
  | O => mkNumber m e
  | S fuel =>
      if ((e <? 0) && (m mod 10 =? 0))%Z then normalise fuel (m / 10)%Z (e + 1)%Z
      else mkNumber m e
  end.

(** The number a literal denotes: sign, integer digits, fraction digits
    and exponent. *)
Definition number_of_literal (neg : bool) (int frac : list N) (e : Z) : number :=
  let m := Z.of_N (digits_value (int ++ frac)) in
  let m := if neg then (- m)%Z else m in
  let e := (e - Z.of_nat (length frac))%Z in
  if (m =? 0)%Z then (if neg then MinusZero else mkNumber 0 0)
  else if (0 <=? e)%Z then mkNumber (m * 10 ^ e)%Z 0
  else normalise (length (int ++ frac)) m e.

(** The optional minus sign of a literal. *)
Definition parse_sign (s : list N) : bool * list N :=
  match s with
  | c :: s' => if (c =? 45)%N then (true, s') else (false, s)
  | [] => (false, s)
  end.

(** The optional fraction: a dot and at least one digit. *)
Definition parse_fraction (s : list N) : option (list N * list N) :=
  match s with
  | c :: s' =>
      if (c =? 46)%N then
        let '(frac, r) := span_digits s' in
        if bool_decide (frac = []) then None else Some (frac, r)
      else Some ([], s)
  | [] => Some ([], s)
  end.

(** The optional exponent: e or E, an optional sign and at least one
    digit. *)
Definition parse_exponent (s : list N) : option (Z * list N) :=
  match s with
  | c :: s' =>
      if (c =? 101)%N || (c =? 69)%N then
        let '(eneg, s'') :=
          match s' with
          | c' :: r =>
              if (c' =? 43)%N then (false, r)
              else if (c' =? 45)%N then (true, r)
              else (false, s')
          | [] => (false, s')
          end in
        let '(eds, r) := span_digits s'' in
        if bool_decide (eds = []) then None
        else
          let e := Z.of_N (digits_value eds) in
          Some (if eneg then (- e)%Z else e, r)
      else Some (0%Z, s)
  | [] => Some (0%Z, s)
  end.

(** The JSON number grammar: an optional minus sign; the integer part,
    a single 0 or a non-zero digit followed by digits; an optional
    fraction; an optional exponent. *)
Definition parse_number (s : list N) : option (number * list N) :=
  let '(neg, s) := parse_sign s in
  let '(int, s) := span_digits s in
  match int with
  | [] => None
  | d :: int' =>
      if (d =? 48)%N && negb (bool_decide (int' = [])) then None
      else
        '(frac, s) ← parse_fraction s;
        '(e, s) ← parse_exponent s;
        Some (number_of_literal neg int frac e, s)
  end.

(** *** Strings *)

Definition hex_digit (d : N) : N := if (d <? 10)%N then (48 + d)%N else (87 + d)%N.

Definition hex_value (c : N) : option N :=
  if is_digit c then Some (c - 48)%N
  else if (97 <=? c)%N && (c <=? 102)%N then Some (c - 87)%N
  else if (65 <=? c)%N && (c <=? 70)%N then Some (c - 55)%N
  else None.

(** [UnicodeEscape(C)]: backslash, u and four lower-case hex digits. *)
Definition unicode_escape (c : N) : list N :=
  [92; 117; hex_digit (c / 4096 mod 16); hex_digit (c / 256 mod 16);
   hex_digit (c / 16 mod 16); hex_digit (c mod 16)]%N.

Definition is_lead (c : N) : bool := (55296 <=? c)%N && (c <=? 56319)%N.
Definition is_trail (c : N) : bool := (56320 <=? c)%N && (c <=? 57343)%N.

(** One code unit that is no half of a surrogate pair. *)
Definition quote_unit (c : N) : list N :=
  if (c =? 8)%N then units "\b"
  else if (c =? 9)%N then units "\t"
  else if (c =? 10)%N then units "\n"
  else if (c =? 12)%N then units "\f"
  else if (c =? 13)%N then units "\r"
  else if (c =? 34)%N then [92; 34]%N
  else if (c =? 92)%N then [92; 92]%N
  else if (c <? 32)%N || is_lead c || is_trail c then unicode_escape c
  else [c].

Fixpoint quote_units (s : list N) : list N :=
  match s with
  | [] => []
  | c :: s' =>
      match s' with
      | d :: s'' =>
          if is_lead c && is_trail d then c :: d :: quote_units s''
          else quote_unit c ++ quote_units s'
      | [] => quote_unit c
      end
  end.

(** [QuoteJSONString(value)] *)
Definition QuoteJSONString (s : list N) : list N := [34%N] ++ quote_units s ++ [34%N].

(** The code unit a single-character escape denotes. *)
Definition simple_escape (c : N) : option N :=
  if (c =? 34)%N then Some 34%N
  else if (c =? 92)%N then Some 92%N
  else if (c =? 47)%N then Some 47%N
  else if (c =? 98)%N then Some 8%N
  else if (c =? 102)%N then Some 12%N
  else if (c =? 110)%N then Some 10%N
  else if (c =? 114)%N then Some 13%N
  else if (c =? 116)%N then Some 9%N
  else None.

Definition hex4 (h1 h2 h3 h4 : N) : option N :=
  a ← hex_value h1; b ← hex_value h2; c ← hex_value h3; d ← hex_value h4;
  Some (((a * 16 + b) * 16 + c) * 16 + d)%N.

(** The characters of a string literal after its opening quote, up to
    and including the closing one. *)
Fixpoint parse_chars (s : list N) : option (list N * list N) :=
  match s with
  | [] => None
  | c :: s' =>
      if (c =? 34)%N then Some ([], s')
      else if (c =? 92)%N then
        match s' with
        | [] => None
        | e :: s'' =>
            if (e =? 117)%N then
              match s'' with
              | h1 :: h2 :: h3 :: h4 :: r =>
                  match hex4 h1 h2 h3 h4 with
                  | Some u =>
                      match parse_chars r with
                      | Some (str, rest) => Some (u :: str, rest)
                      | None => None
                      end
                  | None => None
                  end
              | _ => None
              end
            else
              match simple_escape e with
              | Some u =>
                  match parse_chars s'' with
                  | Some (str, rest) => Some (u :: str, rest)
                  | None => None
                  end
              | None => None
              end
        end
      else if (c <? 32)%N then None
      else
        match parse_chars s' with
        | Some (str, rest) => Some (c :: str, rest)
        | None => None
        end
  end.

(** *** Values *)

(** [Array.prototype.join] on an array of strings. *)
Fixpoint join_units (sep : list N) (l : list (list N)) : list N :=
  match l with
  | [] => []
  | [x] => x
  | x :: l' => x ++ sep ++ join_units sep l'
  end.

(** The steps of [SerializeJSONProperty] that follow the call of [toJSON]:
    the value is written by its type, an array by [SerializeJSONArray] and
    any other object by [SerializeJSONObject], which serialize the elements
    and the own enumerable fields as properties. *)
Definition serialize_value (property : value -> list N) (v : value) : list N :=
  match v with
  | VNull => units "null"
  | VBool b => if b then units "true" else units "false"
  | VNumber n => Number_toString n
  | VString s => QuoteJSONString s
  | VArray _ l =>
      units "[" ++ join_units (units ",") (property <$> l) ++ units "]"
  | VObject _ fs =>
      units "{"
      ++ join_units (units ",")
           ((fun kv => QuoteJSONString kv.1 ++ units ":" ++ property kv.2) <$> fs)
      ++ units "}"
  end.

(** Whether the object has an own field named [toJSON].  The fields of
    the model hold no function, so that such a field hides an inherited
    method and is not called. *)
Definition own_toJSON (fs : list (list N * value)) : bool :=
  bool_decide (units "toJSON" ∈ fs.*1).

(** [SerializeJSONProperty], without a replacer and without indentation:
    an object from which [GetV(value, toJSON)] finds a method is replaced by
    what the method returns; the value is then written by its type. *)
Fixpoint serialize (v : value) : list N :=
  match v with
  | VArray (ToJSONRef _ result) _ => serialize_value serialize result
  | VObject (ToJSONRef _ result) fs =>
      if own_toJSON fs then serialize_value serialize v
      else serialize_value serialize result
  | _ => serialize_value serialize v
  end.

(** [JSON.stringify(value)] *)
Definition stringify (v : value) : list N := serialize v.

Definition is_ws (c : N) : bool :=
  (c =? 9)%N || (c =? 10)%N || (c =? 13)%N || (c =? 32)%N.

Fixpoint skip_ws (s : list N) : list N :=
  match s with
  | c :: s' => if is_ws c then skip_ws s' else s
  | [] => []
  end.

Fixpoint strip_prefix (p s : list N) : option (list N) :=
  match p, s with
  | [], _ => Some s
  | a :: p', b :: s' => if (a =? b)%N then strip_prefix p' s' else None
  | _ :: _, [] => None
  end.

(** [CreateDataProperty(object, key, value)] on the fields built so far:
    a key that is already there keeps its place and takes the new value. *)
Fixpoint set_field (key : list N) (v : value) (fs : list (list N * value))
    : list (list N * value) :=
  match fs with
  | [] => [(key, v)]
  | (k, x) :: fs' =>
      if decide (k = key) then (k, v) :: fs' else (k, x) :: set_field key v fs'
  end.

Inductive parsed : Type :=
  | Parsed (v : value) (rest : list N)
  | Invalid
  | OutOfFuel.

(** Recursive descent over the JSON grammar.  [fuel] bounds the number of
    nested calls; [parse_elements] and [parse_members] continue an array
    and an object after their opening bracket. *)
Fixpoint parse_value (fuel : nat) (s : list N) : parsed :=
  match fuel with
  | O => OutOfFuel
  | S fuel =>
      match skip_ws s with
      | [] => Invalid
      | c :: s1 =>
          if (c =? 123)%N then
            match skip_ws s1 with
            | c' :: s2 =>
                if (c' =? 125)%N then Parsed (VObject ObjectPrototype []) s2
                else parse_members fuel s1 []
            | [] => Invalid
            end
          else if (c =? 91)%N then
            match skip_ws s1 with
            | c' :: s2 =>
                if (c' =? 93)%N then Parsed (VArray ArrayPrototype []) s2
                else parse_elements fuel s1 []
            | [] => Invalid
            end
          else if (c =? 34)%N then
            match parse_chars s1 with
            | Some (str, rest) => Parsed (VString str) rest
            | None => Invalid
            end
          else if (c =? 45)%N || is_digit c then
            match parse_number (c :: s1) with
            | Some (n, rest) => Parsed (VNumber n) rest
            | None => Invalid
            end
          else
            match strip_prefix (units "null") (c :: s1) with
            | Some rest => Parsed VNull rest
            | None =>
                match strip_prefix (units "true") (c :: s1) with
                | Some rest => Parsed (VBool true) rest
                | None =>
                    match strip_prefix (units "false") (c :: s1) with
                    | Some rest => Parsed (VBool false) rest
                    | None => Invalid
                    end
                end
            end
      end
  end
with parse_elements (fuel : nat) (s : list N) (acc : list value) : parsed :=
  match fuel with
  | O => OutOfFuel
  | S fuel =>
      match parse_value fuel s with
      | Parsed v s1 =>
          match skip_ws s1 with
          | c :: s2 =>
              if (c =? 44)%N then parse_elements fuel s2 (acc ++ [v])
              else if (c =? 93)%N then Parsed (VArray ArrayPrototype (acc ++ [v])) s2
              else Invalid
          | [] => Invalid
          end
      | Invalid => Invalid
      | OutOfFuel => OutOfFuel
      end
  end
with parse_members (fuel : nat) (s : list N) (acc : list (list N * value)) : parsed :=
  match fuel with
  | O => OutOfFuel
  | S fuel =>
      match skip_ws s with
      | c :: s1 =>
          if (c =? 34)%N then
            match parse_chars s1 with
            | Some (key, s2) =>
                match skip_ws s2 with
                | c2 :: s3 =>
                    if (c2 =? 58)%N then
                      match parse_value fuel s3 with
                      | Parsed v s4 =>
                          match skip_ws s4 with
                          | c3 :: s5 =>
                              if (c3 =? 44)%N then
                                parse_members fuel s5 (set_field key v acc)
                              else if (c3 =? 125)%N then
                                Parsed (VObject ObjectPrototype (set_field key v acc)) s5
                              else Invalid
                          | [] => Invalid
                          end
                      | Invalid => Invalid
                      | OutOfFuel => OutOfFuel
                      end
                    else Invalid
                | [] => Invalid
                end
            | None => Invalid
            end
          else Invalid
      | [] => Invalid
      end
  end.

(** [JSON.parse(text)], without a reviver: the text is one JSON value
    between optional white space, anything else is a [SyntaxError]. *)
Definition parse (text : list N) : completion value :=
  match parse_value (2 * length text + 1) text with
  | Parsed v rest =>
      match skip_ws rest with
      | [] => Normal v
      | _ :: _ => Throw SyntaxError
      end
  | Invalid | OutOfFuel => Throw SyntaxError
  end.

End JSON.

(** The prototype attachments a program has made, oldest first, each with
    the object it was made on: the part of the heap the helpers change. *)
Definition heap : Type := list (value * prototype).

(** [Object.setPrototypeOf(O, proto)] where [proto] is an object or
    [null]: a [TypeError] on [null], a primitive is returned as it is, an
    object has its slot set. *)
Definition Object_setPrototypeOf (O : value) (proto : prototype) : method heap value :=
  match O with
  | VNull => throw TypeError
  | VBool _ | VNumber _ | VString _ => mret O
  | VArray _ l =>
      (fun h => (Normal tt, h ++ [(O, proto)])) ;; mret (VArray proto l)
  | VObject _ fs =>
      (fun h => (Normal tt, h ++ [(O, proto)])) ;; mret (VObject proto fs)
  end.

(** A host function that touches no state. *)
Definition pure {S A : Type} (c : completion A) : method S A := fun s => (c, s).

(** ** getJSON and fromJSON *)

Definition getJSON (obj : value) : list N := JSON.stringify obj.

(** [object] is the parsed value; after [Object.setPrototypeOf] the same
    variable holds the object with its new slot. *)
Definition fromJSON (Proto : prototype) (json : list N) : method heap value :=
  object ← pure (JSON.parse json);
  object ← Object_setPrototypeOf object Proto;
  mret object.

(** ** Vocabulary of the statements about the JSON helpers *)

Definition is_primitive (v : value) : bool :=
  match v with
  | VBool _ | VNumber _ | VString _ => true
  | _ => false
  end.


(** The value with the prototypes a parser gives: every array on
    [Array.prototype], every other object on [Object.prototype]. *)
Fixpoint plain (v : value) : value :=
  match v with
  | VArray _ l => VArray ArrayPrototype (plain <$> l)
  | VObject _ fs => VObject ObjectPrototype ((fun kv => (kv.1, plain kv.2)) <$> fs)
  | _ => v
  end.

(** The same value on another prototype. *)
Definition with_prototype (proto : prototype) (v : value) : value :=
  match v with
  | VArray _ l => VArray proto l
  | VObject _ fs => VObject proto fs
  | _ => v
  end.

(** Own enumerable fields: the named fields of an object, the indexed
    elements of an array. *)
Definition own_fields (v : value) : list (list N * value) :=
  match v with
  | VObject _ fs => fs
  | VArray _ l => imap (fun i x => (JSON.digits (N.of_nat i), x)) l
  | _ => []
  end.

(** Whether a [toJSON] method is found on the prototype chain that starts
    at this slot. *)
Definition has_toJSON (proto : prototype) : bool :=
  match proto with
  | ToJSONRef _ _ => true
  | _ => false
  end.

(** Whether serializing the value calls a [toJSON] method: on the value
    itself or on a value nested in it. *)
Fixpoint calls_toJSON (v : value) : bool :=
  match v with
  | VArray proto l => has_toJSON proto || existsb calls_toJSON l
  | VObject proto fs =>
      has_toJSON proto && negb (JSON.own_toJSON fs)
      || existsb (fun kv => calls_toJSON kv.2) fs
  | _ => false
  end.

(** A number other than minus zero, in the form the model keeps it in:
    every finite Number other than minus zero has one decimal of this form,
    the exponent at most zero and as large as it can be.  It is the form
    the parser produces. *)
Definition canonical (n : number) : bool :=
  match n with
  | mkNumber m e => (e <=? 0)%Z && ((e =? 0)%Z || negb (m mod 10 =? 0)%Z)
  | MinusZero => false
  end.

(** Values that come back from their text as they are: no number is
    minus zero.  Every number is in the canonical form and the field names
    of an object are distinct, as they are in every JavaScript object. *)
Fixpoint representable (v : value) : bool :=
  match v with
  | VNumber n => canonical n
  | VArray _ l => forallb representable l
  | VObject _ fs =>
      bool_decide (NoDup fs.*1) && forallb (fun kv => representable kv.2) fs
  | _ => true
  end.

(** The [[Prototype]] slot of a value, when it is an object. *)
Definition prototype_of (v : value) : option prototype :=
  match v with
  | VArray proto _ | VObject proto _ => Some proto
  | _ => None
  end.

(** The host's [SyntaxError] is what the specification calls a parse error. *)
Definition ParseError : exn := SyntaxError.

(** A text is valid JSON when the grammar accepts all of it. *)
Definition valid_JSON (text : list N) : Prop :=
  exists fuel v rest,
    JSON.parse_value fuel text = JSON.Parsed v rest /\ JSON.skip_ws rest = [].

(** ** Vocabulary of the statements *)

Inductive category : Type :=
  | Element | Id | Class | Attr | PseudoClass | PseudoElement.

#[global] Instance category_eq_dec : EqDecision category.
Proof. solve_decision. Defined.

(** The name a category method hands to [check]. *)
Definition name (k : category) : string :=
  match k with
  | Element => "element" | Id => "id" | Class => "class"
  | Attr => "attr" | PseudoClass => "pseudoClass" | PseudoElement => "pseudoElement"
  end.

(** The key of [this.selector] a category method writes. *)
Definition slot (k : category) : nat :=
  match k with
  | Element => 1 | Id => 2 | Class => 3
  | Attr => 4 | PseudoClass => 5 | PseudoElement => 6
  end.

(** The text one call contributes. *)
Definition wrap (k : category) (value : string) : string :=
  match k with
  | Element => value
  | Id => "#" +:+ value
  | Class => "." +:+ value
  | Attr => "[" +:+ value +:+ "]"
  | PseudoClass => ":" +:+ value
  | PseudoElement => "::" +:+ value
  end.

Definition call (k : category) (value : string)
    : method NEWcssSelectorBuilder NEWcssSelectorBuilder :=
  match k with
  | Element => Chain.element value
  | Id => Chain.id value
  | Class => Chain.class value
  | Attr => Chain.attr value
  | PseudoClass => Chain.pseudoClass value
  | PseudoElement => Chain.pseudoElement value
  end.

Definition singleton (k : category) : bool :=
  match k with
  | Element | Id | PseudoElement => true
  | _ => false
  end.

(** Canonical index of a category, and of the last entry of [order]
    ([-1] when the chain has none, or when the entry is no category). *)
Definition index (k : category) : Z := indexOf Chain.check_list (Some (name k)).
Definition index_last (c : NEWcssSelectorBuilder) : Z :=
  indexOf Chain.check_list (last (order c)).

(** The fragment stored for a category, empty when there is none. *)
Definition fragment (c : NEWcssSelectorBuilder) (k : category) : string :=
  default "" (selector c !! slot k).

Definition OrderViolationError : exn := Error Chain.order_message.
Definition DuplicateCategoryError : exn := Error Chain.duplicate_message.

(** Chains a program can hold: a fresh one, and whatever a category call
    leaves behind, whether it returned or threw. *)
Inductive reachable : NEWcssSelectorBuilder -> Prop :=
  | reachable_new : reachable Chain.new
  | reachable_call c k v : reachable c -> reachable (snd (call k v c)).


(** Every key of the store belongs to a category that is not later than
    the last one recorded. *)
Definition chain_inv (c : NEWcssSelectorBuilder) : Prop :=
  forall n, is_Some (selector c !! n) ->
    exists k, slot k = n /\ (index k <= index_last c)%Z.

(** The double-quote character, and the attribute value of the documented
    example: href$= followed by .png between double quotes. *)
Definition dquote : Ascii.ascii := Ascii.ascii_of_nat 34.

Definition png_attr : string :=
  "href$=" +:+ String dquote (".png" +:+ String dquote "").

(** A category call, seen as one step: the ordering check, then the
    duplicate test or the append. *)
Definition after_check (k : category) (v : string) (c : NEWcssSelectorBuilder)
    : completion NEWcssSelectorBuilder * NEWcssSelectorBuilder :=
  if singleton k && truthy (selector c !! slot k)
  then (Throw DuplicateCategoryError, c)
  else
    let c' := mkChain (<[slot k := (if singleton k then "" else fragment c k) +:+ wrap k v]>
                         (selector c)) (order c) in
    (Normal c', c').

(** What [check] leaves behind when it does not throw. *)
Definition advance (k : category) (c : NEWcssSelectorBuilder) : NEWcssSelectorBuilder :=
  if (index_last c <? index k)%Z
  then mkChain (selector c) (order c ++ [name k])
  else c.

(** [c.k1(v1).k2(v2)...]: a fluent chain of category calls. *)
Fixpoint chain_calls (l : list (category * string))
    : method NEWcssSelectorBuilder NEWcssSelectorBuilder :=
  match l with
  | [] => get
  | (k, v) :: l' => call k v ;; chain_calls l'
  end.

Definition categories : list category :=
  [Element; Id; Class; Attr; PseudoClass; PseudoElement].

(** The stored fragments in canonical category order, categories without
    a fragment skipped, and their concatenation. *)
Definition fragments (c : NEWcssSelectorBuilder) : list string :=
  omap (fun k => selector c !! slot k) categories.

Definition render (c : NEWcssSelectorBuilder) : string := join "" (fragments c).

(** The pieces one [combine] call puts in front of the pending sequence:
    one for each operand that has a store, and the token when it is a
    non-empty string. *)
Definition operand_pieces (x : operand) : list string :=
  match x with
  | OChain c => [join "" (Object_values (selector c))]
  | OFacade => []
  end.

Definition token_pieces (token : option string) : list string :=
  match token with
  | Some t => if String.eqb t "" then [] else [t]
  | None => []
  end.

(** [combine] as the specification words it: an operand contributes its
    rendering when that rendering is non-empty, the token whenever one is
    provided. *)
Definition spec_rendered (x : operand) : string :=
  match x with
  | OChain c => render c
  | OFacade => ""
  end.

Definition spec_pieces (left : operand) (token : option string) (right : operand)
    : list string :=
  (if String.eqb (spec_rendered left) "" then [] else [spec_rendered left])
  ++ option_list token
  ++ (if String.eqb (spec_rendered right) "" then [] else [spec_rendered right]).

Definition spec_combine (left : operand) (token : option string) (right : operand)
    : method cssSelectorBuilder operand :=
  fun this => (Normal OFacade, mkFacade (spec_pieces left token right ++ combiner this)).

(** ** Vocabulary of the proofs about the JSON model *)

(** The value of a run of digits, least significant first. *)
Definition little_value (l : list N) : N :=
  foldr (fun d acc => (d + 10 * acc)%N) 0%N l.

(** What may follow a number in a text: nothing, or a code unit that does
    not continue the literal. *)
Definition number_end (rest : list N) : bool :=
  match rest with
  | [] => true
  | c :: _ => negb (JSON.is_digit c || (c =? 46)%N || (c =? 101)%N || (c =? 69)%N)
  end.

(** A code unit put in front of what the rest of a literal parses to. *)
Definition cons_unit (c : N) (r : option (list N * list N)) : option (list N * list N) :=
  match r with
  | Some (str, rest) => Some (c :: str, rest)
  | None => None
  end.

(** The first code unit of a serialized value. *)
Definition opens_value (c : N) : Prop :=
  JSON.is_ws c = false /\ (c =? 93)%N = false /\ (c =? 125)%N = false.

(** The exponent of a literal, as [Number::toString] writes it. *)
Definition exponent_text (e : Z) : list N :=
  units "e" ++ (if (e <? 0)%Z then units "-" else units "+")
  ++ JSON.digits (Z.to_N (Z.abs e)).

(** A number literal from its parts: the sign, the digits of the integer
    part, the digits of the fraction, the exponent. *)
Definition literal_text (neg : bool) (int frac : list N) (ex : option Z) : list N :=
  (if neg then [45%N] else []) ++ int
  ++ match frac with [] => [] | _ => 46%N :: frac end
  ++ match ex with Some e => exponent_text e | None => [] end.

(** Digits the grammar accepts as integer part and fraction. *)
Definition literal_parts (int frac : list N) : Prop :=
  Forall (fun c => JSON.is_digit c = true) int
  /\ Forall (fun c => JSON.is_digit c = true) frac
  /\ exists d int', int = d :: int'
       /\ (d =? 48)%N && negb (bool_decide (int' = [])) = false.

(** The text of a value when no [toJSON] method is found from it or from
    a value nested in it: the own fields are all that is written. *)
Fixpoint own_text (v : value) : list N :=
  match v with
  | VNull => units "null"
  | VBool b => if b then units "true" else units "false"
  | VNumber n => JSON.Number_toString n
  | VString s => JSON.QuoteJSONString s
  | VArray _ l =>
      units "[" ++ JSON.join_units (units ",") (own_text <$> l) ++ units "]"
  | VObject _ fs =>
      units "{"
      ++ JSON.join_units (units ",")
           ((fun kv => JSON.QuoteJSONString kv.1 ++ units ":" ++ own_text kv.2) <$> fs)
      ++ units "}"
  end.

(** The text of one member: the quoted key, a colon, the value. *)
Definition member_text (kv : list N * value) : list N :=
  JSON.QuoteJSONString kv.1 ++ units ":" ++ own_text kv.2.

(** The round trip of one value, as a property to carry through arrays
    and objects. *)
Definition parses_back (v : value) : Prop :=
  representable v = true ->
  forall rest fuel,
    number_end rest = true -> 2 * length (own_text v) + 1 <= fuel ->
    JSON.parse_value fuel (own_text v ++ rest) = JSON.Parsed (plain v) rest.

(** ** Vocabulary of the further properties *)

(** The facade's entry point of a category. *)
Definition facade_call (k : category) (value : string) : completion NEWcssSelectorBuilder :=
  match k with
  | Element => Facade.element value
  | Id => Facade.id value
  | Class => Facade.class value
  | Attr => Facade.attr value
  | PseudoClass => Facade.pseudoClass value
  | PseudoElement => Facade.pseudoElement value
  end.

(** A sequence of calls in canonical order, and one in which element, id
    and pseudo-element occur at most once. *)
Definition canonical_order (l : list (category * string)) : Prop :=
  StronglySorted (fun p q => (index p.1 <= index q.1)%Z) l.

Definition singletons_once (l : list (category * string)) : Prop :=
  NoDup (filter (fun k => singleton k = true) l.*1).

(** The categories named by the entries of [order]. *)
Definition recorded (c : NEWcssSelectorBuilder) (ks : list category) : Prop :=
  order c = name <$> ks.

(** A selector written with the facade: a chain, or [combine] applied to
    two such selectors.  JavaScript evaluates the arguments of a call from
    left to right before the call itself. *)
Inductive selector_expr : Type :=
  | SChain (c : NEWcssSelectorBuilder)
  | SCombine (lhs : selector_expr) (token : option string) (rhs : selector_expr).

Fixpoint evaluate (e : selector_expr) : method cssSelectorBuilder operand :=
  match e with
  | SChain c => mret (OChain c)
  | SCombine lhs token rhs =>
      selector1 ← evaluate lhs;
      selector2 ← evaluate rhs;
      Facade.combine selector1 token selector2
  end.

(** [combine(c1, t1, combine(c2, t2, ... combine(cn, tn, last)))] *)
Definition right_nested (items : list (NEWcssSelectorBuilder * option string))
    (last : NEWcssSelectorBuilder) : selector_expr :=
  foldr (fun it e => SCombine (SChain it.1) it.2 e) (SChain last) items.

(** The pieces of such a selector as they are read, left to right. *)
Definition reading_order (items : list (NEWcssSelectorBuilder * option string))
    (last : NEWcssSelectorBuilder) : list string :=
  concat ((fun it => operand_pieces (OChain it.1) ++ token_pieces it.2) <$> items)
  ++ operand_pieces (OChain last).

(** Successive [combine] calls on the facade. *)
Fixpoint combine_calls (l : list (operand * option string * operand))
    : method cssSelectorBuilder operand :=
  match l with
  | [] => mret OFacade
  | (selector1, combinator, selector2) :: l' =>
      Facade.combine selector1 combinator selector2 ;; combine_calls l'
  end.

Definition combine_pieces (call : operand * option string * operand) : list string :=
  operand_pieces call.1.1 ++ token_pieces call.1.2 ++ operand_pieces call.2.

(** What evaluating a selector hands to an enclosing [combine], and what
    it has put in front of the pending sequence. *)
Definition operand_of (e : selector_expr) : operand :=
  match e with
  | SChain c => OChain c
  | SCombine _ _ _ => OFacade
  end.

Fixpoint pushed (e : selector_expr) : list string :=
  match e with
  | SChain _ => []
  | SCombine lhs token rhs =>
      operand_pieces (operand_of lhs) ++ token_pieces token
      ++ operand_pieces (operand_of rhs) ++ pushed rhs ++ pushed lhs
  end.

(** * Properties of the selector chain *)

Section chain_steps.

Implicit Types (c : NEWcssSelectorBuilder) (k : category) (v : string).

Lemma check_unfold value c :
  Chain.check value c =
    let ip := index_last c in
    let ic := indexOf Chain.check_list (Some value) in
    if ((0 <=? ip) && (ic <? ip))%Z then (Throw OrderViolationError, c)
    else if (ip <? ic)%Z then (Normal tt, mkChain (selector c) (order c ++ [value]))
    else (Normal tt, c).
Proof.
  unfold Chain.check, index_last, mbind, method_bind, get; cbn zeta.
  destruct ((0 <=? _) && _)%Z; [done|]. cbn.
  by destruct (_ <? _)%Z.
Qed.

Lemma call_unfold k v c :
  call k v c =
    match Chain.check (name k) c with
    | (Normal _, c') => after_check k v c'
    | (Throw e, c') => (Throw e, c')
    end.
Proof.
  destruct k; cbn [call name];
    unfold Chain.element, Chain.id, Chain.class, Chain.attr, Chain.pseudoClass,
      Chain.pseudoElement, after_check, fragment, mbind, method_bind;
    destruct (Chain.check _ c) as [[[]|e] c']; try done;
    cbn [get slot singleton andb wrap];
    destruct (selector c' !! _) as [old|] eqn:Hold; cbn [truthy negb default];
    try destruct (String.eqb_spec old ""); subst; cbn;
    rewrite ?Hold; done.
Qed.

Lemma index_bounds k : (0 <= index k <= 5)%Z.
Proof. destruct k; vm_compute; split; discriminate. Qed.

Lemma index_slot k : index k = (Z.of_nat (slot k) - 1)%Z.
Proof. by destruct k. Qed.

Lemma slot_index_inj k k' : slot k = slot k' -> k = k'.
Proof. by destruct k, k'. Qed.

Lemma index_last_push s o k : index_last (mkChain s (o ++ [name k])) = index k.
Proof. unfold index_last, index; cbn [order]. by rewrite last_snoc. Qed.

Lemma check_name k c :
  Chain.check (name k) c =
    if (index k <? index_last c)%Z then (Throw OrderViolationError, c)
    else (Normal tt, advance k c).
Proof.
  rewrite check_unfold; cbn zeta. fold (index k). unfold advance.
  pose proof (index_bounds k).
  destruct (Z.ltb_spec (index k) (index_last c)).
  - replace (0 <=? index_last c)%Z with true by (symmetry; apply Z.leb_le; lia). done.
  - rewrite andb_false_r. by destruct (_ <? _)%Z.
Qed.

Lemma call_cases k v c :
  call k v c =
    if (index k <? index_last c)%Z then (Throw OrderViolationError, c)
    else after_check k v (advance k c).
Proof. rewrite call_unfold, check_name. by destruct (_ <? _)%Z. Qed.

Lemma selector_advance k c : selector (advance k c) = selector c.
Proof. unfold advance. by destruct (_ <? _)%Z. Qed.

Lemma index_last_advance k c :
  (index_last c <= index k)%Z -> index_last (advance k c) = index k.
Proof.
  intros Hle. unfold advance. destruct (Z.ltb_spec (index_last c) (index k)).
  - destruct c. apply index_last_push.
  - lia.
Qed.

Lemma advance_id k c : index_last c = index k -> advance k c = c.
Proof. intros Heq. unfold advance. rewrite Heq, Z.ltb_irrefl. done. Qed.

(** The outcome of a call: it threw one of the two errors, or returned
    the chain it left behind. *)
Lemma call_outcome k v c :
  call k v c = (Throw OrderViolationError, c) /\ (index k < index_last c)%Z
  \/ (call k v c = (Throw DuplicateCategoryError, advance k c)
      /\ (index_last c <= index k)%Z /\ singleton k = true
      /\ truthy (selector c !! slot k) = true)
  \/ (exists c', call k v c = (Normal c', c') /\ (index_last c <= index k)%Z
      /\ order c' = order (advance k c)
      /\ selector c' =
           <[slot k := (if singleton k then "" else fragment c k) +:+ wrap k v]> (selector c)
      /\ (singleton k = true -> truthy (selector c !! slot k) = false)).
Proof.
  rewrite call_cases. destruct (Z.ltb_spec (index k) (index_last c)); [by left|].
  right. unfold after_check, fragment. rewrite !selector_advance.
  destruct (singleton k) eqn:Hs; cbn [andb].
  - destruct (truthy _) eqn:Ht; [by left|]. right. eauto 10.
  - right. eexists; split_and!; eauto. done.
Qed.

End chain_steps.

(** ** Strings *)

Section string_facts.

Lemma string_app_cons (a : Ascii.ascii) (s t : string) :
  String a s +:+ t = String a (s +:+ t).
Proof. reflexivity. Qed.

Lemma string_app_nil_r (s : string) : s +:+ "" = s.
Proof. induction s as [|a s IH]; [done|]. by rewrite string_app_cons, IH. Qed.

Lemma string_app_assoc (s1 s2 s3 : string) : (s1 +:+ s2) +:+ s3 = s1 +:+ s2 +:+ s3.
Proof. induction s1 as [|a s1 IH]; [done|]. by rewrite !string_app_cons, IH. Qed.

Lemma join_empty_cons (x : string) (l : list string) :
  join "" (x :: l) = x +:+ join "" l.
Proof.
  unfold join. destruct l as [|y l]; cbn [String.concat].
  - by rewrite string_app_nil_r.
  - done.
Qed.

Lemma join_empty_app (l1 l2 : list string) :
  join "" (l1 ++ l2) = join "" l1 +:+ join "" l2.
Proof.
  induction l1 as [|x l1 IH]; [done|].
  rewrite <- app_comm_cons, !join_empty_cons, IH. by rewrite string_app_assoc.
Qed.

Lemma join_empty_omap {A} (f : A -> option string) (l : list A) :
  join "" (omap f l) = foldr (fun a acc => default "" (f a) +:+ acc) "" l.
Proof.
  induction l as [|a l IH]; [done|]. cbn [omap list_omap foldr].
  destruct (f a) as [x|]; cbn [default].
  - by rewrite join_empty_cons, IH.
  - by rewrite IH.
Qed.

End string_facts.

(** ** [Object.values] on the store of a chain *)

Section object_values.

Lemma StronglySorted_filter_le (P : nat -> Prop) `{!forall n, Decision (P n)} (l : list nat) :
  StronglySorted (≤) l -> StronglySorted (≤) (filter P l).
Proof.
  induction 1 as [|n l Hl IH Hn]; [constructor|].
  rewrite filter_cons. case_decide; [|done].
  constructor; [done|]. apply Forall_forall. intros m Hm.
  apply list_elem_of_filter in Hm as [_ Hm].
  by eapply Forall_forall in Hn.
Qed.

Lemma omap_lookup_filter_dom (o : gmap nat string) (l : list nat) :
  omap (fun n => o !! n) (filter (fun n => n ∈ dom o) l) = omap (fun n => o !! n) l.
Proof.
  induction l as [|n l IH]; [done|].
  rewrite filter_cons. case_decide as Hn; cbn [omap list_omap].
  - by rewrite IH.
  - apply not_elem_of_dom in Hn. by rewrite Hn, IH.
Qed.

(** Keys are enumerated in ascending order, so a store whose keys are
    all among [1..6] lists its values in canonical category order. *)
Lemma Object_values_slots (o : gmap nat string) :
  (forall n, is_Some (o !! n) -> exists k, slot k = n) ->
  Object_values o = omap (fun k => o !! slot k) categories.
Proof.
  intros Hdom. unfold Object_values.
  assert (merge_sort (≤) (elements (dom o)) =
          filter (fun n => n ∈ dom o) [1; 2; 3; 4; 5; 6]) as ->.
  { apply (Sorted_unique (≤)).
    - apply (Sorted_merge_sort (≤)).
    - apply StronglySorted_Sorted, StronglySorted_filter_le.
      repeat (constructor; [|repeat (constructor; [lia|]); constructor]).
      constructor.
    - rewrite merge_sort_Permutation. apply NoDup_Permutation.
      + apply NoDup_elements.
      + apply NoDup_filter. by apply (bool_decide_unpack _); vm_compute.
      + intros n. rewrite elem_of_elements, list_elem_of_filter.
        split; [|tauto]. intros Hn. split; [done|].
        apply elem_of_dom, Hdom in Hn as [k <-].
        destruct k; by apply (bool_decide_unpack _); vm_compute. }
  rewrite omap_lookup_filter_dom. done.
Qed.

End object_values.

(** ** Chains a program can hold *)

Section reachable_chains.

Implicit Types (c : NEWcssSelectorBuilder) (k : category) (v : string).

Lemma index_last_order c c' : order c' = order c -> index_last c' = index_last c.
Proof. unfold index_last. by intros ->. Qed.

Lemma chain_inv_advance k c :
  (index_last c <= index k)%Z -> chain_inv c -> chain_inv (advance k c).
Proof.
  intros Hle Hinv n Hn. rewrite selector_advance in Hn.
  destruct (Hinv n Hn) as (k' & <- & Hk'). exists k'. split; [done|].
  rewrite index_last_advance by done. lia.
Qed.

Lemma chain_inv_call k v c : chain_inv c -> chain_inv (snd (call k v c)).
Proof.
  intros Hinv.
  destruct (call_outcome k v c) as [[-> _]|[(-> & Hle & _)|(c' & -> & Hle & Ho & Hs & _)]];
    cbn [snd]; [done|by apply chain_inv_advance|].
  intros n Hn. rewrite Hs in Hn.
  rewrite (index_last_order _ _ Ho), index_last_advance by done.
  destruct (decide (slot k = n)) as [<-|Hne]; [by exists k|].
  rewrite lookup_insert_ne in Hn by done.
  destruct (Hinv n Hn) as (k' & <- & Hk'). exists k'. split; [done|lia].
Qed.

Lemma reachable_inv c : reachable c -> chain_inv c.
Proof.
  induction 1 as [|c k v _ IH]; [|by apply chain_inv_call].
  intros n [x Hx]. cbn in Hx. by rewrite lookup_empty in Hx.
Qed.

Lemma stringify_render c :
  chain_inv c -> Chain.stringify c = (Normal (render c), c).
Proof.
  intros Hinv. unfold Chain.stringify, render, fragments, mbind, method_bind, get, mret, method_ret.
  rewrite Object_values_slots; [done|].
  intros n Hn. destruct (Hinv n Hn) as (k & ? & _). by exists k.
Qed.

(** A call that throws leaves a reachable chain as it found it. *)
Lemma call_throw_state k v c e :
  chain_inv c -> fst (call k v c) = Throw e ->
  snd (call k v c) = c /\ (e = OrderViolationError \/ e = DuplicateCategoryError).
Proof.
  intros Hinv.
  destruct (call_outcome k v c) as [[-> _]|[(-> & Hle & _ & Ht)|(c' & -> & _)]];
    cbn [fst snd]; intros [= <-]; [by auto|].
  split; [|by auto]. apply advance_id.
  destruct (selector c !! slot k) as [x|] eqn:Hx; [|done].
  destruct (Hinv (slot k)) as (k' & Hk' & Hidx); [by rewrite Hx|].
  apply slot_index_inj in Hk' as ->. lia.
Qed.

End reachable_chains.

(** ** Fluent chains of calls *)

Section fluent_chains.

Implicit Types (c : NEWcssSelectorBuilder) (k : category) (v : string).

Lemma chain_calls_cons k v l c :
  chain_calls ((k, v) :: l) c =
    match call k v c with
    | (Normal _, c') => chain_calls l c'
    | (Throw e, c') => (Throw e, c')
    end.
Proof. done. Qed.

Lemma reachable_chain_calls l c : reachable c -> reachable (snd (chain_calls l c)).
Proof.
  revert c. induction l as [|[k v] l IH]; intros c Hc; [done|].
  rewrite chain_calls_cons.
  pose proof (reachable_call c k v Hc) as Hc'.
  destruct (call k v c) as [[c1|e] c2]; cbn [snd] in *; auto.
Qed.

Lemma chain_calls_normal l c r c' :
  chain_calls l c = (Normal r, c') -> r = c'.
Proof.
  revert c. induction l as [|[k v] l IH]; intros c.
  - by intros [= <- <-].
  - rewrite chain_calls_cons. destruct (call k v c) as [[c1|e] c2]; [eauto|done].
Qed.

(** The rendering as one concatenation over the six categories. *)
Lemma render_flat c :
  render c =
    fragment c Element +:+ fragment c Id +:+ fragment c Class +:+
    fragment c Attr +:+ fragment c PseudoClass +:+ fragment c PseudoElement.
Proof.
  unfold render, fragments. rewrite join_empty_omap. cbn [foldr categories].
  unfold fragment. by rewrite string_app_nil_r.
Qed.

(** A call that returns appends its text to the rendering: the
    categories after it are still empty. *)
Lemma render_call k v c c' :
  chain_inv c -> call k v c = (Normal c', c') ->
  render c' = render c +:+ wrap k v.
Proof.
  intros Hinv Hcall.
  destruct (call_outcome k v c) as [[Hc _]|[(Hc & _)|(c1 & Hc & Hle & _ & Hs & Ht)]];
    rewrite Hc in Hcall; try done.
  injection Hcall as -> _.
  assert (forall k', (index k < index k')%Z -> selector c !! slot k' = None) as Hlater.
  { intros k' Hk'. destruct (selector c !! slot k') as [x|] eqn:Hx; [|done].
    destruct (Hinv (slot k')) as (k2 & Hk2 & Hidx); [by rewrite Hx|].
    apply slot_index_inj in Hk2 as ->. lia. }
  assert (selector c' !! slot k = Some (fragment c k +:+ wrap k v)) as Hk.
  { rewrite Hs, lookup_insert_eq. f_equal. destruct (singleton k) eqn:Hsing; [|done].
    specialize (Ht eq_refl). unfold fragment.
    destruct (selector c !! slot k) as [x|]; [|done]. cbn in Ht.
    apply negb_false_iff, String.eqb_eq in Ht as ->. done. }
  assert (forall k', k' <> k -> selector c' !! slot k' = selector c !! slot k') as Hne.
  { intros k' Hk'. rewrite Hs, lookup_insert_ne; [done|].
    intros Heq. by apply slot_index_inj in Heq. }
  rewrite !render_flat. unfold fragment in *.
  destruct k;
    repeat match goal with
    | |- context [selector c' !! slot ?k'] =>
        first [ rewrite Hk | rewrite (Hne k') by done ]
    end;
    rewrite ?(Hlater Id), ?(Hlater Class), ?(Hlater Attr), ?(Hlater PseudoClass),
      ?(Hlater PseudoElement) by (by vm_compute);
    cbn [default]; rewrite ?string_app_nil_r, ?string_app_assoc; done.
Qed.

Lemma chain_calls_render l c c' :
  chain_inv c -> chain_calls l c = (Normal c', c') ->
  chain_inv c' /\ render c' = render c +:+ join "" (map (fun p => wrap p.1 p.2) l).
Proof.
  revert c. induction l as [|[k v] l IH]; intros c Hinv.
  - intros [= <-]. by rewrite string_app_nil_r.
  - rewrite chain_calls_cons. destruct (call k v c) as [[c1|e] c2] eqn:Hcall; [|done].
    intros Hrest.
    assert (c1 = c2) as ->.
    { destruct (call_outcome k v c) as [[Hc _]|[(Hc & _)|(c3 & Hc & _)]]; congruence. }
    pose proof (chain_inv_call k v c Hinv) as Hinv2. rewrite Hcall in Hinv2.
    destruct (IH c2 Hinv2 Hrest) as [? ->].
    rewrite (render_call k v c c2) by done.
    cbn [map]. rewrite join_empty_cons, string_app_assoc. done.
Qed.

End fluent_chains.

(** * The examples of the source's documentation *)

Section documented_examples.

(** [builder.id('main').class('container').class('editable').stringify()] *)
Example builder_id_class_class :
  fst ((chain_calls [(Id, "main"); (Class, "container"); (Class, "editable")] ;;
        Chain.stringify) Chain.new)
  = Normal "#main.container.editable".
Proof. by vm_compute. Qed.

(** The nested [combine] of the documentation: the arguments are evaluated
    first, so the innermost [combine] runs first and the outer ones put
    their pieces in front of its pieces. *)
Example builder_combine_nested :
  let div := snd (chain_calls [(Element, "div"); (Id, "main"); (Class, "container");
                                (Class, "draggable")] Chain.new) in
  let table := snd (chain_calls [(Element, "table"); (Id, "data")] Chain.new) in
  let tr := snd (chain_calls [(Element, "tr"); (PseudoClass, "nth-of-type(even)")]
                   Chain.new) in
  let td := snd (chain_calls [(Element, "td"); (PseudoClass, "nth-of-type(even)")]
                   Chain.new) in
  fst ((inner ← Facade.combine (OChain tr) (Some " ") (OChain td);
        middle ← Facade.combine (OChain table) (Some "~") inner;
        outer ← Facade.combine (OChain div) (Some "+") middle;
        Facade.stringify) Facade.initial)
  = Normal "div#main.container.draggable + table#data ~ tr:nth-of-type(even)   td:nth-of-type(even)".
Proof. by vm_compute. Qed.

(** An empty element name is stored but is not truthy: a second [element]
    call on the same chain is not refused. *)
Example element_empty_then_element :
  fst ((Chain.element "" ;; Chain.element "y" ;; Chain.stringify) Chain.new) = Normal "y".
Proof. by vm_compute. Qed.

(** [getJSON([1,2,3])] and [getJSON({ height: 10, width: 20 })] *)
Example getJSON_array :
  getJSON (VArray ArrayPrototype
             [VNumber (mkNumber 1 0); VNumber (mkNumber 2 0); VNumber (mkNumber 3 0)])
  = units "[1,2,3]".
Proof. by vm_compute. Qed.

Example getJSON_object :
  getJSON (VObject ObjectPrototype
             [(units "height", VNumber (mkNumber 10 0));
              (units "width", VNumber (mkNumber 20 0))])
  = units "{" ++ [34%N] ++ units "height" ++ [34%N] ++ units ":10,"
    ++ [34%N] ++ units "width" ++ [34%N] ++ units ":20}".
Proof. by vm_compute. Qed.

(** [fromJSON(Circle.prototype, '{"radius":10}')] *)
Example fromJSON_circle :
  fromJSON (ObjectRef 1)
    (units "{" ++ [34%N] ++ units "radius" ++ [34%N] ++ units ":10}") []
  = (Normal (VObject (ObjectRef 1) [(units "radius", VNumber (mkNumber 10 0))]),
     [(VObject ObjectPrototype [(units "radius", VNumber (mkNumber 10 0))], ObjectRef 1)]).
Proof. by vm_compute. Qed.

(** [Number::toString] on each of its branches. *)
Example Number_toString_samples :
  JSON.Number_toString (mkNumber 15 (-1)) = units "1.5"
  /\ JSON.Number_toString (mkNumber (-1) (-6)) = units "-0.000001"
  /\ JSON.Number_toString (mkNumber 1 (-7)) = units "1e-7"
  /\ JSON.Number_toString (mkNumber 125 (-10)) = units "1.25e-8"
  /\ JSON.Number_toString (mkNumber (10 ^ 21) 0) = units "1e+21"
  /\ JSON.Number_toString (mkNumber 123456789012345678901 0)
     = units "123456789012345678901".
Proof. split_and!; by vm_compute. Qed.

Example JSON_parse_samples :
  JSON.parse (units " [ 1.50e3 , true , null , {} ] ")
    = Normal (VArray ArrayPrototype
                [VNumber (mkNumber 1500 0); VBool true; VNull; VObject ObjectPrototype []])
  /\ JSON.parse (units "0.25") = Normal (VNumber (mkNumber 25 (-2)))
  /\ JSON.parse (units "01") = Throw SyntaxError
  /\ JSON.parse (units "") = Throw SyntaxError
  /\ JSON.parse (units "undefined") = Throw SyntaxError.
Proof. split_and!; by vm_compute. Qed.

(** Minus zero is printed as 0 and is what the literal -0 denotes; a
    number that is no integer is printed with its fraction. *)
Example minus_zero_and_fractions :
  getJSON (VNumber MinusZero) = units "0"
  /\ JSON.parse (units "-0") = Normal (VNumber MinusZero)
  /\ JSON.parse (units "-0.0e3") = Normal (VNumber MinusZero)
  /\ JSON.parse (units "0") = Normal (VNumber (mkNumber 0 0))
  /\ getJSON (VArray ArrayPrototype [VNumber (mkNumber 25 (-1)); VNumber MinusZero])
     = units "[2.5,0]"
  /\ JSON.parse (units "[2.5,1e21,1.25e-8]")
     = Normal (VArray ArrayPrototype
                 [VNumber (mkNumber 25 (-1)); VNumber (mkNumber (10 ^ 21) 0);
                  VNumber (mkNumber 125 (-10))]).
Proof. split_and!; by vm_compute. Qed.

(** An object that finds a [toJSON] method is written as what the method
    returns, at the top and inside an array; the own fields of the returned
    value are written as properties, so that a [toJSON] found from one of
    them is called in turn.  An own field named toJSON hides the
    method. *)
Example getJSON_toJSON :
  getJSON (VObject (ToJSONRef 1 (VNumber (mkNumber 7 0))) [(units "a", VBool true)])
    = units "7"
  /\ getJSON (VObject (ToJSONRef 1 (VNumber (mkNumber 7 0))) [(units "toJSON", VBool true)])
    = units "{" ++ [34%N] ++ units "toJSON" ++ [34%N] ++ units ":true}"
  /\ getJSON (VArray ArrayPrototype
                [VObject (ToJSONRef 1 (VNumber (mkNumber 7 0))) []; VNull])
    = units "[7,null]"
  /\ getJSON (VObject (ToJSONRef 1
                         (VArray (ToJSONRef 2 VNull)
                            [VArray (ToJSONRef 3 (VBool false)) []])) [])
    = units "[false]".
Proof. split_and!; by vm_compute. Qed.

End documented_examples.

Lemma call_order_violation (c : NEWcssSelectorBuilder) (k : category) (v : string) :
  (index k < index_last c)%Z -> call k v c = (Throw OrderViolationError, c).
Proof.
  intros Hlt. rewrite call_cases.
  by destruct (Z.ltb_spec (index k) (index_last c)); [|lia].
Qed.

(** What a call that returns has done. *)
Lemma call_normal (c : NEWcssSelectorBuilder) (k : category) (v : string)
    (r c' : NEWcssSelectorBuilder) :
  call k v c = (Normal r, c') ->
  r = c' /\ (index_last c <= index k)%Z /\ order c' = order (advance k c)
  /\ index_last c' = index k
  /\ selector c' =
       <[slot k := (if singleton k then "" else fragment c k) +:+ wrap k v]> (selector c)
  /\ (singleton k = true -> truthy (selector c !! slot k) = false).
Proof.
  intros Hcall.
  destruct (call_outcome k v c) as [[Hc _]|[(Hc & _)|(c1 & Hc & Hle & Ho & Hs & Ht)]];
    rewrite Hc in Hcall; try done.
  injection Hcall as -> ->. split_and!; try done.
  by rewrite (index_last_order _ _ Ho), index_last_advance.
Qed.

Lemma wrap_nonempty (k : category) (v : string) :
  (k = Element -> v <> "") -> truthy (Some (wrap k v)) = true.
Proof.
  intros Hv. destruct k; try done. cbn.
  destruct (String.eqb_spec v ""); [|done]. by destruct Hv.
Qed.





(** * The claims about the selector chain *)

(** C1: every category call starts with the ordering check.  When the
    canonical index of the category is strictly below the index of the last
    category recorded on the chain, the call throws the ordering error with
    its message and changes nothing, whatever the store holds; whatever
    [check] throws is what the call throws, and the duplicate test or the
    append only runs on what [check] leaves when it returns.  So [id('x')]
    followed by [element('y')] raises the ordering error, not the duplicate
    one. *)
Theorem C1_ordering_check_first :
  (forall c k v, (index k < index_last c)%Z ->
     call k v c = (Throw OrderViolationError, c))
  /\ (forall c k v e c', Chain.check (name k) c = (Throw e, c') ->
     call k v c = (Throw e, c'))
  /\ (forall c k v c', Chain.check (name k) c = (Normal tt, c') ->
     call k v c = after_check k v c')
  /\ (forall c k, fst (Chain.check (name k) c) = Throw OrderViolationError <->
     (index k < index_last c)%Z)
  /\ (Chain.id "x" ;; Chain.element "y") Chain.new
       = (Throw OrderViolationError, snd (Chain.id "x" Chain.new))
  /\ OrderViolationError =
       Error "Selector parts should be arranged in the following order: element, id, class, attribute, pseudo-class, pseudo-element"
  /\ OrderViolationError <> DuplicateCategoryError.
Proof.
  split_and!; try done.
  - apply call_order_violation.
  - intros c k v e c' Hcheck. by rewrite call_unfold, Hcheck.
  - intros c k v c' Hcheck. by rewrite call_unfold, Hcheck.
  - intros c k. rewrite check_name.
    destruct (Z.ltb_spec (index k) (index_last c)); cbn [fst]; split; try done; lia.
Qed.

Lemma C1_ordering_check_first_witness :
  (index Element < index_last (snd (Chain.id "x" Chain.new)))%Z
  /\ call Element "y" (snd (Chain.id "x" Chain.new))
       = (Throw OrderViolationError, snd (Chain.id "x" Chain.new)).
Proof.
  split; [by vm_compute|].
  apply (proj1 C1_ordering_check_first). by vm_compute.
Defined.

(** C2, as stated, fails: on the chain [element('a').id('b')] the element
    category has a stored fragment, yet a further [element('c')] does not
    raise the duplicate error (the ordering check comes first). *)
Lemma C2_counterexample :
  let c := snd (chain_calls [(Element, "a"); (Id, "b")] Chain.new) in
  reachable c
  /\ selector c !! slot Element = Some "a"
  /\ call Element "c" c = (Throw OrderViolationError, c)
  /\ fst (call Element "c" c) <> Throw DuplicateCategoryError.
Proof.
  cbn zeta. split; [apply reachable_chain_calls, reachable_new|].
  split; [by vm_compute|].
  assert (call Element "c" (snd (chain_calls [(Element, "a"); (Id, "b")] Chain.new))
          = (Throw OrderViolationError, snd (chain_calls [(Element, "a"); (Id, "b")] Chain.new)))
    as Hcall.
  { apply call_order_violation. by vm_compute. }
  split; [done|]. by rewrite Hcall.
Qed.

(** C2 (amended): on a chain whose store holds a non-empty fragment for
    element, id or pseudo-element, calling that category again throws: the
    duplicate error when the last recorded category is not a later one, the
    ordering error otherwise.  In particular a second call made right after
    a first one that stored a non-empty fragment throws the duplicate error
    and leaves the chain as it was, for every pair of values. *)
Theorem C2_duplicate_singleton :
  (forall c k v, singleton k = true -> truthy (selector c !! slot k) = true ->
     ((index_last c <= index k)%Z -> fst (call k v c) = Throw DuplicateCategoryError)
     /\ ((index k < index_last c)%Z -> call k v c = (Throw OrderViolationError, c)))
  /\ (forall c k v w c1, singleton k = true -> (k = Element -> v <> "") ->
     call k v c = (Normal c1, c1) ->
     call k w c1 = (Throw DuplicateCategoryError, c1)).
Proof.
  split.
  - intros c k v Hs Ht. split; [|apply call_order_violation].
    intros Hle. rewrite call_cases.
    destruct (Z.ltb_spec (index k) (index_last c)); [lia|].
    unfold after_check. by rewrite selector_advance, Hs, Ht.
  - intros c k v w c1 Hs Hv Hcall.
    apply call_normal in Hcall as (_ & _ & _ & Hidx & Hsel & _).
    rewrite call_cases, Hidx, Z.ltb_irrefl, advance_id by done.
    unfold after_check. rewrite Hsel, lookup_insert_eq, Hs. cbn [andb].
    change ("" +:+ wrap k v) with (wrap k v). by rewrite wrap_nonempty.
Qed.

Lemma C2_duplicate_singleton_witness :
  call Id "y" (snd (Chain.id "x" Chain.new))
    = (Throw DuplicateCategoryError, snd (Chain.id "x" Chain.new))
  /\ fst (call PseudoElement "b"
            (snd (chain_calls [(Element, "p"); (PseudoElement, "a")] Chain.new)))
     = Throw DuplicateCategoryError
  /\ call Element "q"
       (snd (chain_calls [(Element, "p"); (PseudoElement, "a")] Chain.new))
     = (Throw OrderViolationError,
        snd (chain_calls [(Element, "p"); (PseudoElement, "a")] Chain.new)).
Proof.
  split_and!.
  - apply (proj2 C2_duplicate_singleton Chain.new Id "x" "y"); by vm_compute.
  - apply (proj1 C2_duplicate_singleton _ PseudoElement "b"); by vm_compute.
  - apply (proj1 C2_duplicate_singleton _ Element "q"); by vm_compute.
Defined.

(** C6: after a category call that returns, the last recorded category is
    the one just called; the record grew by that category exactly when its
    index was strictly greater than the last recorded one, and is unchanged
    when the two were equal.  The same category then still passes the
    ordering check and every strictly earlier category is rejected. *)
Theorem C6_last_category_pointer (c c' : NEWcssSelectorBuilder) (k : category) (v : string) :
  call k v c = (Normal c', c') ->
  ((index_last c < index k)%Z \/ index_last c = index k)
  /\ ((index_last c < index k)%Z <-> order c' = order c ++ [name k])
  /\ (index_last c = index k -> order c' = order c)
  /\ index_last c' = index k
  /\ Chain.check (name k) c' = (Normal tt, c')
  /\ (forall k' w, (index k' < index k)%Z ->
        call k' w c' = (Throw OrderViolationError, c')).
Proof.
  intros Hcall. apply call_normal in Hcall as (_ & Hle & Ho & Hidx & _).
  assert (index_last c = index k -> order c' = order c) as Heq.
  { intros He. by rewrite Ho, advance_id. }
  split_and!; [lia| |done|done| |].
  - split.
    + intros Hlt. rewrite Ho. unfold advance.
      by destruct (Z.ltb_spec (index_last c) (index k)); [|lia].
    + intros Hpush. destruct (decide (index_last c = index k)) as [He|]; [|lia].
      rewrite (Heq He) in Hpush. apply (f_equal length) in Hpush.
      rewrite length_app in Hpush. cbn in Hpush. lia.
  - by rewrite check_name, Hidx, Z.ltb_irrefl, advance_id.
  - intros k' w Hlt. apply call_order_violation. lia.
Qed.

Lemma C6_last_category_pointer_witness :
  order (snd (Chain.class "a" (snd (Chain.id "x" Chain.new)))) = ["id"; "class"]
  /\ order (snd (Chain.class "b" (snd (Chain.class "a" Chain.new)))) = ["class"].
Proof.
  split.
  - pose proof (C6_last_category_pointer (snd (Chain.id "x" Chain.new))
      (snd (Chain.class "a" (snd (Chain.id "x" Chain.new)))) Class "a" eq_refl)
      as (_ & Hadv & _).
    apply Hadv. by vm_compute.
  - pose proof (C6_last_category_pointer (snd (Chain.class "a" Chain.new))
      (snd (Chain.class "b" (snd (Chain.class "a" Chain.new)))) Class "b" eq_refl)
      as (_ & _ & Hsame & _).
    apply Hsame. by vm_compute.
Defined.

(** C9: a category call that throws on a chain a program can hold throws
    one of the two errors and leaves the chain exactly as it was, store and
    record, so [stringify()] afterwards returns what it returned before. *)
Theorem C9_failed_call_keeps_state (c : NEWcssSelectorBuilder) (k : category)
    (v : string) (e : exn) :
  reachable c -> fst (call k v c) = Throw e ->
  snd (call k v c) = c
  /\ (e = OrderViolationError \/ e = DuplicateCategoryError)
  /\ Chain.stringify (snd (call k v c)) = Chain.stringify c
  /\ Chain.stringify c = (Normal (render c), c).
Proof.
  intros Hc He. apply reachable_inv in Hc.
  destruct (call_throw_state k v c e Hc He) as [Hsame Herr].
  split_and!; [done|done|by rewrite Hsame|by apply stringify_render].
Qed.

Lemma C9_failed_call_keeps_state_witness :
  snd (call Id "y" (snd (call Id "x" Chain.new))) = snd (call Id "x" Chain.new)
  /\ snd (call Element "y" (snd (call Id "x" Chain.new))) = snd (call Id "x" Chain.new).
Proof.
  split.
  - apply (C9_failed_call_keeps_state _ Id "y" DuplicateCategoryError);
      [apply reachable_call, reachable_new|by vm_compute].
  - apply (C9_failed_call_keeps_state _ Element "y" OrderViolationError);
      [apply reachable_call, reachable_new|by vm_compute].
Defined.




(** C3: on every chain a program can hold, [stringify()] returns the
    stored fragments concatenated in canonical category order, categories
    without a fragment skipped, and leaves the chain as it is, so that a
    second call returns the same string.  For a chain built from a fresh one
    by calls that all returned, that string is the text of the calls in the
    order they were made.  The documented example yields a, the bracketed
    attribute, then :focus. *)
Theorem C3_stringify_canonical :
  (forall c, reachable c ->
     Chain.stringify c = (Normal (join "" (fragments c)), c)
     /\ (Chain.stringify ;; Chain.stringify) c = Chain.stringify c)
  /\ (forall l c, chain_calls l Chain.new = (Normal c, c) ->
     Chain.stringify c = (Normal (join "" (map (fun p => wrap p.1 p.2) l)), c))
  /\ (exists c0, Facade.element "a" = Normal c0
       /\ fst ((Chain.attr png_attr ;; Chain.pseudoClass "focus" ;; Chain.stringify) c0)
          = Normal ("a[" +:+ png_attr +:+ "]:focus")).
Proof.
  split_and!.
  - intros c Hc. apply reachable_inv in Hc.
    pose proof (stringify_render c Hc) as Hs. unfold render in Hs.
    split; [done|]. unfold mbind, method_bind. by rewrite Hs.
  - intros l c Hrun.
    assert (chain_inv Chain.new) as Hnew by (apply reachable_inv, reachable_new).
    destruct (chain_calls_render l Chain.new c Hnew Hrun) as [Hinv Hr].
    rewrite stringify_render, Hr by done. done.
  - eexists. split; [by vm_compute|by vm_compute].
Qed.

Lemma C3_stringify_canonical_witness :
  Chain.stringify (snd (chain_calls [(Id, "main"); (Class, "container"); (Class, "editable")]
                          Chain.new))
  = (Normal "#main.container.editable",
     snd (chain_calls [(Id, "main"); (Class, "container"); (Class, "editable")] Chain.new))
  /\ fst (Chain.stringify (snd (chain_calls [(Class, "c"); (Element, "e")] Chain.new)))
     = Normal ".c".
Proof.
  split.
  - rewrite (proj1 (proj2 C3_stringify_canonical)
               [(Id, "main"); (Class, "container"); (Class, "editable")]
               (snd (chain_calls [(Id, "main"); (Class, "container"); (Class, "editable")]
                       Chain.new)));
      by vm_compute.
  - destruct (proj1 C3_stringify_canonical
                (snd (chain_calls [(Class, "c"); (Element, "e")] Chain.new)))
      as [-> _]; [apply reachable_chain_calls, reachable_new|by vm_compute].
Defined.

(** * The claims about the facade *)

(** C4, as stated, fails: the chain [element('')] exposes a store whose
    rendering is the empty string, and [combine] still contributes that
    empty piece, which [stringify()] then separates with a space. *)
Lemma C4_counterexample :
  exists c0 c1,
    Facade.element "" = Normal c0 /\ Facade.element "a" = Normal c1
    /\ Facade.combine (OChain c0) (Some "+") (OChain c1) Facade.initial
        = (Normal OFacade, mkFacade [""; "+"; "a"])
    /\ spec_combine (OChain c0) (Some "+") (OChain c1) Facade.initial
        = (Normal OFacade, mkFacade ["+"; "a"])
    /\ fst ((Facade.combine (OChain c0) (Some "+") (OChain c1) ;; Facade.stringify)
              Facade.initial) = Normal " + a".
Proof. do 2 eexists. split_and!; by vm_compute. Qed.

(** C4 (amended): [combine(left, token, right)] puts in front of the
    facade's pending sequence, in this order, one piece for the left operand
    when it is a chain (its fragments concatenated in canonical order, even
    when that is the empty string), the token when it is a non-empty string,
    and one piece for the right operand when it is a chain; an operand that
    is the facade contributes nothing.  It returns the facade and drains
    nothing.  The facade's [stringify()] joins the pending sequence with
    single spaces, empties it and returns the joined string. *)
Theorem C4_combine_prepends :
  (forall left token right f,
     Facade.combine left token right f =
       (Normal OFacade,
        mkFacade (operand_pieces left ++ token_pieces token ++ operand_pieces right
                  ++ combiner f)))
  /\ (forall c, reachable c -> operand_pieces (OChain c) = [join "" (fragments c)])
  /\ (forall f, Facade.stringify f = (Normal (join " " (combiner f)), mkFacade []))
  /\ (forall l t r f,
       fst ((Facade.combine l t r ;; Facade.stringify) f)
         = Normal (join " " (operand_pieces l ++ token_pieces t ++ operand_pieces r
                             ++ combiner f))).
Proof.
  assert (forall left token right f,
     Facade.combine left token right f =
       (Normal OFacade,
        mkFacade (operand_pieces left ++ token_pieces token ++ operand_pieces right
                  ++ combiner f))) as Hcombine.
  { intros left token right f. unfold Facade.combine, Facade.unshift, mbind, method_bind.
    cbn zeta. unfold mret, method_ret. do 2 f_equal.
    destruct left, token as [t|], right; cbn [operand_selector truthy operand_pieces
      token_pieces option_list app];
      try destruct (String.eqb t ""); cbn [negb app];
      by rewrite <- ?app_assoc. }
  split_and!; [done| |done|].
  - intros c Hc. cbn [operand_pieces]. do 2 f_equal. unfold fragments.
    apply Object_values_slots. intros n Hn.
    destruct (reachable_inv c Hc n Hn) as (k & ? & _). by exists k.
  - intros l t r f. unfold mbind at 1, method_bind at 1. by rewrite Hcombine.
Qed.

Lemma C4_combine_prepends_witness :
  operand_pieces (OChain (snd (chain_calls [(Element, "tr"); (PseudoClass, "hover")] Chain.new)))
  = ["tr:hover"].
Proof.
  rewrite (proj1 (proj2 C4_combine_prepends));
    [by vm_compute|apply reachable_chain_calls, reachable_new].
Defined.

(** * Properties of the JSON model *)

(** ** Decimal digits *)

Section decimal_digits.

Import JSON.

Lemma little_digits_value (fuel : nat) (n : N) :
  (n < 2 ^ N.of_nat fuel)%N -> little_value (little_digits fuel n) = n.
Proof.
  revert n. induction fuel as [|fuel IH]; intros n Hn.
  - cbn in *. lia.
  - cbn [little_digits little_value foldr].
    pose proof (N.div_mod' n 10) as Hdiv.
    destruct (N.ltb_spec n 10) as [Hlt|Hge].
    + cbn [foldr]. rewrite N.mod_small by done. lia.
    + fold (little_value (little_digits fuel (n / 10))). rewrite IH; [lia|].
      rewrite Nat2N.inj_succ, N.pow_succ_r' in Hn.
      apply N.Div0.div_lt_upper_bound. lia.
Qed.

Lemma little_digits_bound (fuel : nat) (n : N) :
  Forall (fun d => (d < 10)%N) (little_digits fuel n).
Proof.
  revert n. induction fuel as [|fuel IH]; intros n; [constructor|].
  cbn [little_digits]. constructor; [by apply N.mod_lt|].
  destruct (n <? 10)%N; [constructor|apply IH].
Qed.

Lemma little_digits_last (fuel : nat) (n : N) :
  (0 < n < 2 ^ N.of_nat fuel)%N ->
  exists d, last (little_digits fuel n) = Some d /\ (0 < d < 10)%N.
Proof.
  revert n. induction fuel as [|fuel IH]; intros n Hn.
  - cbn in *. lia.
  - cbn [little_digits]. destruct (N.ltb_spec n 10) as [Hlt|Hge].
    + exists (n mod 10)%N. rewrite N.mod_small by done. split; [done|lia].
    + destruct (IH (n / 10)%N) as (d & Hd & Hrange).
      { rewrite Nat2N.inj_succ, N.pow_succ_r' in Hn. split.
        - apply N.div_str_pos. lia.
        - apply N.Div0.div_lt_upper_bound. lia. }
      exists d. split; [|done].
      destruct (little_digits fuel (n / 10)) as [|x l]; [done|].
      by rewrite last_cons_cons.
Qed.

Lemma little_digits_length (fuel : nat) (n : N) (k : nat) :
  (n < 10 ^ N.of_nat (S k))%N -> length (little_digits fuel n) <= S k.
Proof.
  revert n k. induction fuel as [|fuel IH]; intros n k Hn; [cbn; lia|].
  cbn [little_digits length]. destruct (N.ltb_spec n 10) as [Hlt|Hge]; [cbn; lia|].
  destruct k as [|k].
  - cbn in Hn. lia.
  - specialize (IH (n / 10)%N k). rewrite (Nat2N.inj_succ (S k)), N.pow_succ_r' in Hn.
    assert (n / 10 < 10 ^ N.of_nat (S k))%N
      by (apply N.Div0.div_lt_upper_bound; lia).
    lia.
Qed.

Lemma fuel_enough (n : N) : (n < 2 ^ N.of_nat (S (N.to_nat (N.log2 n))))%N.
Proof.
  rewrite Nat2N.inj_succ, N2Nat.id.
  destruct (N.eq_dec n 0%N) as [->|Hn]; [done|].
  apply N.log2_spec. lia.
Qed.

Lemma digits_value_rev (l : list N) :
  digits_value (rev ((fun d => (48 + d)%N) <$> l)) = little_value l.
Proof.
  unfold digits_value, little_value.
  rewrite <- fold_left_rev_right, rev_involutive.
  induction l as [|d l IH]; [done|]. cbn [fmap list_fmap foldr].
  fold (fmap (M:=list) (fun d => (48 + d)%N) l). rewrite IH. lia.
Qed.

Lemma digits_value_digits (n : N) : digits_value (digits n) = n.
Proof.
  unfold digits. rewrite digits_value_rev.
  apply little_digits_value, fuel_enough.
Qed.

Lemma digits_are_digits (n : N) : Forall (fun c => is_digit c = true) (digits n).
Proof.
  unfold digits. apply Forall_rev, Forall_fmap.
  eapply Forall_impl; [apply little_digits_bound|].
  intros d Hd. cbn in *. unfold is_digit.
  apply andb_true_iff. split; apply N.leb_le; lia.
Qed.

Lemma digits_zero : digits 0%N = [48%N].
Proof. done. Qed.

(** No leading zero on a positive number. *)
Lemma digits_head (n : N) :
  (0 < n)%N -> exists d l, digits n = d :: l /\ d <> 48%N.
Proof.
  intros Hn.
  destruct (little_digits_last (S (N.to_nat (N.log2 n))) n) as (d & Hd & Hrange).
  { split; [done|apply fuel_enough]. }
  unfold digits. apply last_Some in Hd as [l' ->].
  rewrite fmap_app, rev_app_distr. cbn. eexists _, _. split; [done|lia].
Qed.

Lemma digits_length (n : N) (k : nat) :
  (n < 10 ^ N.of_nat (S k))%N -> length (digits n) <= S k.
Proof.
  intros Hn. unfold digits. rewrite length_rev, length_fmap.
  by apply little_digits_length.
Qed.

Lemma span_digits_app (ds rest : list N) :
  Forall (fun c => is_digit c = true) ds ->
  match rest with c :: _ => is_digit c = false | [] => True end ->
  span_digits (ds ++ rest) = (ds, rest).
Proof.
  intros Hds Hrest. induction Hds as [|c ds Hc _ IH]; cbn [app span_digits].
  - destruct rest as [|c rest]; [done|]. cbn. by rewrite Hrest.
  - by rewrite Hc, IH.
Qed.

Lemma strip_trailing_zeros_spec (l : list N) :
  strip_trailing_zeros l
    ++ replicate (length l - length (strip_trailing_zeros l)) 48%N = l.
Proof.
  induction l as [|d l IH]; [done|]. cbn [strip_trailing_zeros].
  destruct (strip_trailing_zeros l) as [|x r] eqn:Hs.
  - cbn in IH. rewrite Nat.sub_0_r in IH.
    destruct (N.eqb_spec d 48) as [->|Hd].
    + cbn. by rewrite IH.
    + cbn [length app]. replace (S (length l) - 1) with (length l) by lia.
      by rewrite IH.
  - cbn [length app] in *. replace (S (length l) - S (S (length r)))
      with (length l - S (length r)) by lia.
    by rewrite IH.
Qed.

Lemma strip_trailing_zeros_length (l : list N) :
  length (strip_trailing_zeros l) <= length l.
Proof.
  rewrite <- (strip_trailing_zeros_spec l) at 2. rewrite length_app. lia.
Qed.

Lemma digits_value_from (l : list N) (a : N) :
  fold_left (fun a c => (10 * a + (c - 48))%N) l a
  = (a * 10 ^ N.of_nat (length l) + digits_value l)%N.
Proof.
  unfold digits_value. revert a. induction l as [|c l IH]; intros a.
  - cbn. lia.
  - cbn [fold_left length]. rewrite IH, (IH (10 * 0 + (c - 48))%N).
    rewrite Nat2N.inj_succ, N.pow_succ_r'. ring.
Qed.

Lemma digits_value_app (l1 l2 : list N) :
  digits_value (l1 ++ l2)
  = (digits_value l1 * 10 ^ N.of_nat (length l2) + digits_value l2)%N.
Proof.
  unfold digits_value at 1. rewrite fold_left_app.
  fold (digits_value l1). apply digits_value_from.
Qed.

Lemma digits_value_zeros (z : nat) : digits_value (replicate z 48%N) = 0%N.
Proof.
  induction z as [|z IH]; [done|].
  change (replicate (S z) 48%N) with ([48%N] ++ replicate z 48%N).
  rewrite digits_value_app, IH. done.
Qed.

(** The last digit is the remainder by ten. *)
Lemma digits_last (n : N) : exists l, digits n = l ++ [(48 + n mod 10)%N].
Proof.
  unfold digits. cbn [little_digits fmap list_fmap rev]. by eexists.
Qed.

Lemma strip_trailing_zeros_last (l : list N) (d : N) :
  d <> 48%N -> strip_trailing_zeros (l ++ [d]) = l ++ [d].
Proof.
  intros Hd. induction l as [|x l IH]; cbn [app strip_trailing_zeros].
  - by destruct (N.eqb_spec d 48).
  - rewrite IH. by destruct l.
Qed.

Lemma strip_trailing_zeros_digits (n : N) :
  (n mod 10 <> 0)%N -> strip_trailing_zeros (digits n) = digits n.
Proof.
  intros Hn. destruct (digits_last n) as [l ->].
  apply strip_trailing_zeros_last. lia.
Qed.

Lemma strip_trailing_zeros_head (d : N) (l : list N) :
  d <> 48%N -> exists l', strip_trailing_zeros (d :: l) = d :: l'.
Proof.
  intros Hd. cbn [strip_trailing_zeros].
  destruct (strip_trailing_zeros l); [|by eexists].
  destruct (N.eqb_spec d 48); [done|by eexists].
Qed.

Lemma strip_trailing_zeros_are_digits (l : list N) :
  Forall (fun c => is_digit c = true) l ->
  Forall (fun c => is_digit c = true) (strip_trailing_zeros l).
Proof.
  intros Hl. rewrite <- (strip_trailing_zeros_spec l) in Hl.
  by apply Forall_app in Hl as [? _].
Qed.

End decimal_digits.

(** ** Numbers *)

Section number_round_trip.

Import JSON.

Lemma is_digit_range (c : N) : is_digit c = true <-> (48 <= c <= 57)%N.
Proof.
  unfold is_digit. rewrite andb_true_iff, !N.leb_le. done.
Qed.

Lemma number_end_digit (rest : list N) :
  number_end rest = true ->
  match rest with c :: _ => is_digit c = false | [] => True end.
Proof.
  destruct rest as [|c rest]; [done|]. cbn. by destruct (is_digit c).
Qed.

Lemma parse_sign_text (neg : bool) (d : N) (s : list N) :
  is_digit d = true ->
  parse_sign ((if neg then [45%N] else []) ++ d :: s) = (neg, d :: s).
Proof.
  intros Hd%is_digit_range. destruct neg; [done|]. cbn [app parse_sign].
  by destruct (N.eqb_spec d 45); [lia|].
Qed.

Lemma parse_exponent_text (ex : option Z) (rest : list N) :
  number_end rest = true ->
  parse_exponent (match ex with Some e => exponent_text e | None => [] end ++ rest)
  = Some (default 0%Z ex, rest).
Proof.
  intros Hrest. destruct ex as [e|]; cbn [default app].
  - unfold exponent_text. change (units "e") with [101%N].
    assert (forall sign : N, (sign =? 43)%N || (sign =? 45)%N = true ->
      parse_exponent ([101%N] ++ [sign] ++ digits (Z.to_N (Z.abs e)) ++ rest)
      = Some (if (sign =? 43)%N then Z.abs e else (- Z.abs e)%Z, rest)) as Hsign.
    { intros sign Hs. cbn [app parse_exponent].
      change (101 =? 101)%N with true. cbn [orb].
      assert (span_digits (digits (Z.to_N (Z.abs e)) ++ rest)
              = (digits (Z.to_N (Z.abs e)), rest)) as Hspan.
      { apply span_digits_app; [apply digits_are_digits|by apply number_end_digit]. }
      assert (bool_decide (digits (Z.to_N (Z.abs e)) = []) = false) as Hne.
      { apply bool_decide_eq_false. intros Hnil.
        pose proof (digits_value_digits (Z.to_N (Z.abs e))) as Hv.
        destruct (N.eq_dec (Z.to_N (Z.abs e)) 0%N) as [H0|H0].
        - rewrite H0 in Hnil. done.
        - destruct (digits_head (Z.to_N (Z.abs e))) as (d & l & Hd & _); [lia|].
          congruence. }
      destruct (sign =? 43)%N eqn:Hplus.
      - rewrite Hspan, Hne, digits_value_digits. do 2 f_equal. lia.
      - cbn [orb] in Hs. rewrite Hs, Hspan, Hne, digits_value_digits.
        do 2 f_equal. lia. }
    destruct (Z.ltb_spec e 0).
    + change (units "-") with [45%N]. rewrite <- !app_assoc, Hsign by done.
      change (45 =? 43)%N with false. cbn iota. unfold id. do 2 f_equal. lia.
    + change (units "+") with [43%N]. rewrite <- !app_assoc, Hsign by done.
      change (43 =? 43)%N with true. cbn iota. unfold id. do 2 f_equal. lia.
  - destruct rest as [|c rest]; [done|]. cbn in Hrest. cbn [parse_exponent].
    apply negb_true_iff in Hrest.
    apply orb_false_iff in Hrest as [Hrest ->].
    apply orb_false_iff in Hrest as [_ ->]. done.
Qed.

Lemma parse_fraction_text (frac rest : list N) :
  Forall (fun c => is_digit c = true) frac ->
  match rest with
  | c :: _ => is_digit c = false /\ (c =? 46)%N = false
  | [] => True
  end ->
  parse_fraction (match frac with [] => [] | _ => 46%N :: frac end ++ rest)
  = Some (frac, rest).
Proof.
  intros Hfrac Hrest. destruct frac as [|d frac].
  - cbn [app]. destruct rest as [|c rest]; [done|]. cbn [parse_fraction].
    by rewrite (proj2 Hrest).
  - cbn [app parse_fraction]. change (46 =? 46)%N with true. cbn iota.
    rewrite app_comm_cons, span_digits_app; [done|done|].
    destruct rest; [done|]. apply Hrest.
Qed.

(** The parser reads a literal back as its parts. *)
Lemma parse_number_literal (neg : bool) (int frac : list N) (ex : option Z)
    (rest : list N) :
  literal_parts int frac -> number_end rest = true ->
  parse_number (literal_text neg int frac ex ++ rest)
  = Some (number_of_literal neg int frac (default 0%Z ex), rest).
Proof.
  intros (Hint & Hfrac & d & int' & -> & Hlead) Hrest.
  unfold literal_text, parse_number. rewrite <- !app_assoc.
  set (tail := match ex with Some e => exponent_text e | None => [] end ++ rest).
  set (point := match frac with [] => [] | _ => 46%N :: frac end).
  assert (match tail with
          | c :: _ => is_digit c = false /\ (c =? 46)%N = false
          | [] => True
          end) as Htail.
  { subst tail. destruct ex as [e|]; [done|]. cbn [app].
    destruct rest as [|c rest]; [done|]. cbn in Hrest.
    apply negb_true_iff in Hrest.
    apply orb_false_iff in Hrest as [Hrest _].
    apply orb_false_iff in Hrest as [Hrest _].
    by apply orb_false_iff in Hrest as [-> ->]. }
  cbn [app]. rewrite parse_sign_text by (by inversion Hint).
  rewrite app_comm_cons, span_digits_app, Hlead; [|done|].
  - subst point. rewrite (parse_fraction_text frac tail Hfrac Htail).
    cbn [mbind option_bind]. subst tail. rewrite (parse_exponent_text ex rest Hrest).
    done.
  - subst point. destruct frac; [|done]. cbn [app].
    destruct tail; [done|]. apply Htail.
Qed.

Lemma normalise_canonical (fuel : nat) (m e : Z) :
  (m mod 10)%Z <> 0%Z -> normalise fuel m e = mkNumber m e.
Proof.
  intros Hm. destruct fuel; [done|]. cbn [normalise].
  destruct (Z.eqb_spec (m mod 10) 0); [done|]. by rewrite andb_false_r.
Qed.

Lemma number_of_literal_spec (neg : bool) (int frac : list N) (ex m e : Z) :
  m <> 0%Z ->
  (if neg then (- Z.of_N (digits_value (int ++ frac)))%Z
   else Z.of_N (digits_value (int ++ frac))) = m ->
  (ex - Z.of_nat (length frac))%Z = e ->
  number_of_literal neg int frac ex =
    if (0 <=? e)%Z then mkNumber (m * 10 ^ e)%Z 0
    else normalise (length (int ++ frac)) m e.
Proof.
  intros Hm Hval He. unfold number_of_literal. cbn zeta. rewrite Hval, He.
  by destruct (Z.eqb_spec m 0).
Qed.

Lemma last_digit_nonzero (m : Z) :
  (m mod 10)%Z <> 0%Z -> (Z.to_N (Z.abs m) mod 10)%N <> 0%N.
Proof.
  intros Hm Ha. apply Hm. apply Z.mod_divide; [done|].
  apply Z.divide_abs_r. apply Z.mod_divide; [done|].
  apply (f_equal Z.of_N) in Ha. rewrite N2Z.inj_mod in Ha.
  rewrite Z2N.id in Ha by lia. exact Ha.
Qed.

Lemma point_nonempty (frac : list N) :
  frac <> [] -> match frac with [] => [] | _ => 46%N :: frac end = 46%N :: frac.
Proof. by destruct frac. Qed.

(** What [Number::toString] prints is a literal of the grammar, and the
    literal denotes the number. *)
Lemma Number_toString_literal (n : number) :
  canonical n = true ->
  exists neg int frac ex,
    Number_toString n = literal_text neg int frac ex
    /\ literal_parts int frac
    /\ number_of_literal neg int frac (default 0%Z ex) = n.
Proof.
  destruct n as [m e|]; [|done]. cbn [canonical].
  intros [He%Z.leb_le Hcan]%andb_true_iff.
  destruct (Z.eq_dec m 0%Z) as [->|Hm].
  { assert (e = 0%Z) as ->.
    { apply orb_true_iff in Hcan as [?%Z.eqb_eq|Hcan]; [done|]. done. }
    exists false, [48%N], [], None. split_and!; [done| |done].
    split_and!; [by repeat constructor|constructor|by exists 48%N, []]. }
  set (a := Z.to_N (Z.abs m)).
  assert (0 < a)%N as Ha by lia.
  destruct (digits_head a Ha) as (d & l & Hds & Hd).
  pose proof (digits_are_digits a) as Hdig.
  pose proof (digits_value_digits a) as Hval.
  pose proof (strip_trailing_zeros_spec (digits a)) as Hstrip.
  pose proof (strip_trailing_zeros_length (digits a)) as Hk.
  assert ((if (m <? 0)%Z then (- Z.of_N a)%Z else Z.of_N a) = m) as Hsign.
  { destruct (Z.ltb_spec m 0); lia. }
  assert ((d =? 48)%N = false) as Hd48 by (by apply N.eqb_neq).
  unfold Number_toString. cbn [mant expo]. fold a.
  destruct (Z.eqb_spec m 0) as [|_]; [done|].
  change (units "-") with [45%N]. change (units ".") with [46%N].
  change (units "0.") with [48%N; 46%N].
  set (s := strip_trailing_zeros (digits a)) in *.
  set (L := length (digits a)) in *.
  assert (0 < L) as HL by (subst L; rewrite Hds; cbn; lia).
  destruct (Z.eq_dec e 0%Z) as [->|He0].
  - (* an integer *)
    rewrite Z.add_0_r.
    destruct ((Z.of_nat (length s) <=? Z.of_nat L) && (Z.of_nat L <=? 21))%Z eqn:H1.
    + exists (m <? 0)%Z, (digits a), [], None. split_and!.
      * unfold literal_text. rewrite !app_nil_r. f_equal.
        replace (Z.to_nat (Z.of_nat L - Z.of_nat (length s))) with (L - length s) by lia.
        exact Hstrip.
      * split_and!; [done|constructor|]. exists d, l. by rewrite Hd48.
      * rewrite (number_of_literal_spec _ _ _ _ m 0%Z); rewrite ?app_nil_r, ?Hval; try done.
        cbn. by rewrite Z.mul_1_r.
    + apply andb_false_iff in H1 as [H1%Z.leb_gt|H1%Z.leb_gt]; [lia|].
      replace ((0 <? Z.of_nat L) && (Z.of_nat L <=? 21))%Z with false
        by (symmetry; apply andb_false_iff; right; apply Z.leb_gt; lia).
      replace ((-6 <? Z.of_nat L) && (Z.of_nat L <=? 0))%Z with false
        by (symmetry; apply andb_false_iff; right; apply Z.leb_gt; lia).
      destruct (strip_trailing_zeros_head d l Hd) as [s' Hs].
      rewrite <- Hds in Hs. fold s in Hs.
      exists (m <? 0)%Z, [d], s', (Some (Z.of_nat L - 1)%Z). split_and!.
      * unfold literal_text, exponent_text. rewrite Hs. f_equal.
        by destruct s'.
      * pose proof (strip_trailing_zeros_are_digits _ Hdig) as Hsd.
        fold s in Hsd. rewrite Hs in Hsd. inversion Hsd; subst.
        split_and!; [by constructor|done|]. exists d, []. by rewrite Hd48.
      * cbn [default]. unfold id.
        assert (digits_value s * 10 ^ N.of_nat (L - length s) = a)%N as Hvs.
        { rewrite <- Hval, <- Hstrip.
          rewrite digits_value_app, digits_value_zeros, length_replicate. lia. }
        rewrite Hs in Hvs, Hk. cbn [length] in Hvs, Hk.
        rewrite (number_of_literal_spec _ _ _ _
                   (if (m <? 0)%Z then (- Z.of_N (digits_value (d :: s')))%Z
                    else Z.of_N (digits_value (d :: s')))
                   (Z.of_nat (L - S (length s')))); [| |done|lia].
        -- replace (0 <=? Z.of_nat (L - S (length s')))%Z with true
             by (symmetry; apply Z.leb_le; lia).
           f_equal. apply (f_equal Z.of_N) in Hvs.
           rewrite N2Z.inj_mul, N2Z.inj_pow, nat_N_Z in Hvs.
           change (Z.of_N 10) with 10%Z in Hvs. subst a.
           destruct (Z.ltb_spec m 0); lia.
        -- assert (digits_value (d :: s') <> 0)%N by (intros H0; rewrite H0 in Hvs; lia).
           destruct (m <? 0)%Z; lia.
  - (* a fraction: no trailing zero *)
    assert ((m mod 10)%Z <> 0%Z) as Hlast.
    { apply orb_true_iff in Hcan as [?%Z.eqb_eq|Hcan]; [done|].
      apply negb_true_iff in Hcan. by apply Z.eqb_neq. }
    assert (s = digits a) as Hs.
    { subst s. by apply strip_trailing_zeros_digits, last_digit_nonzero. }
    rewrite Hs. fold L.
    replace ((Z.of_nat L <=? Z.of_nat L + e) && (Z.of_nat L + e <=? 21))%Z with false
      by (symmetry; apply andb_false_iff; left; apply Z.leb_gt; lia).
    destruct ((0 <? Z.of_nat L + e) && (Z.of_nat L + e <=? 21))%Z eqn:H2.
    + apply andb_true_iff in H2 as [H2%Z.ltb_lt _].
      set (n := Z.to_nat (Z.of_nat L + e)).
      assert (0 < n < L) as Hn by lia.
      assert (drop n (digits a) <> []) as Hdrop.
      { intros Hnil%(f_equal length). rewrite length_drop in Hnil.
        cbn [length] in Hnil. fold L in Hnil. lia. }
      exists (m <? 0)%Z, (take n (digits a)), (drop n (digits a)), None. split_and!.
      * unfold literal_text. by rewrite point_nonempty, app_nil_r.
      * split_and!; [by apply Forall_take|by apply Forall_drop|].
        rewrite Hds. destruct n as [|n]; [lia|]. cbn [take].
        eexists _, _. split; [done|]. by rewrite Hd48.
      * rewrite (number_of_literal_spec _ _ _ _ m e); rewrite ?take_drop, ?Hval; try done.
        -- destruct (Z.leb_spec 0 e); [lia|]. by apply normalise_canonical.
        -- cbn [default]. rewrite length_drop. fold L. lia.
    + assert (Z.of_nat L + e <= 0 \/ 21 < Z.of_nat L + e)%Z as Hout.
      { apply andb_false_iff in H2 as [?%Z.ltb_ge|?%Z.leb_gt]; lia. }
      clear H2.
      destruct ((-6 <? Z.of_nat L + e) && (Z.of_nat L + e <=? 0))%Z eqn:H3.
      * apply andb_true_iff in H3 as [_ H3%Z.leb_le].
        set (z := Z.to_nat (- (Z.of_nat L + e))).
        exists (m <? 0)%Z, [48%N], (replicate z 48%N ++ digits a), None. split_and!.
        -- unfold literal_text. rewrite point_nonempty, app_nil_r; [done|].
           rewrite Hds. by destruct (replicate z 48%N).
        -- split_and!; [by repeat constructor| |by exists 48%N, []].
           apply Forall_app. split; [|done]. by apply Forall_replicate.
        -- rewrite (number_of_literal_spec _ _ _ _ m e); try done.
           ++ destruct (Z.leb_spec 0 e); [lia|]. by apply normalise_canonical.
           ++ change ([48%N] ++ replicate z 48%N ++ digits a)
                with (replicate (S z) 48%N ++ digits a).
              by rewrite digits_value_app, digits_value_zeros, Hval.
           ++ cbn [default]. rewrite length_app, length_replicate. fold L. lia.
      * clear H3.
        exists (m <? 0)%Z, [d], l, (Some (Z.of_nat L + e - 1)%Z). split_and!.
        -- unfold literal_text, exponent_text. rewrite Hds. f_equal. by destruct l.
        -- rewrite Hds in Hdig. inversion Hdig; subst.
           split_and!; [by constructor|done|]. exists d, []. by rewrite Hd48.
        -- rewrite (number_of_literal_spec _ _ _ _ m e); try done.
           ++ destruct (Z.leb_spec 0 e); [lia|]. by apply normalise_canonical.
           ++ change ([d] ++ l) with (d :: l). by rewrite <- Hds, Hval.
           ++ cbn [default]. unfold id. subst L. rewrite Hds. cbn [length]. lia.
Qed.

(** A number in the form the parser produces is read back from what
    [Number::toString] prints for it. *)
Lemma parse_number_toString (n : number) (rest : list N) :
  canonical n = true -> number_end rest = true ->
  parse_number (Number_toString n ++ rest) = Some (n, rest).
Proof.
  intros Hcan Hrest.
  destruct (Number_toString_literal n Hcan) as (neg & int & frac & ex & -> & Hparts & <-).
  by apply parse_number_literal.
Qed.

(** The first code unit of a printed number is a minus sign or a digit. *)
Lemma Number_toString_head (n : number) :
  canonical n = true ->
  exists c t, Number_toString n = c :: t /\ (c =? 45)%N || is_digit c = true.
Proof.
  intros Hcan.
  destruct (Number_toString_literal n Hcan)
    as (neg & int & frac & ex & -> & (Hint & _ & d & int' & -> & _) & _).
  unfold literal_text. destruct neg; [by eexists _, _|].
  cbn [app]. eexists _, _. split; [done|].
  inversion Hint as [|?? Hd _]; subst. by rewrite Hd, orb_true_r.
Qed.

Lemma digits_value_bound (l : list N) :
  Forall (fun c => is_digit c = true) l ->
  (digits_value l < 10 ^ N.of_nat (length l))%N.
Proof.
  induction l as [|c l IH] using rev_ind; intros Hl; [done|].
  apply Forall_app in Hl as [Hl Hc]. inversion Hc as [|?? Hc' _]; subst.
  apply is_digit_range in Hc'. specialize (IH Hl).
  rewrite digits_value_app, length_app. cbn [length].
  replace (N.of_nat (length l + 1)) with (N.succ (N.of_nat (length l))) by lia.
  rewrite N.pow_succ_r'. change (digits_value [c]) with (10 * 0 + (c - 48))%N.
  change (10 ^ N.of_nat 1)%N with 10%N. lia.
Qed.

Lemma span_digits_digits (s ds r : list N) :
  span_digits s = (ds, r) -> Forall (fun c => is_digit c = true) ds.
Proof.
  revert ds r. induction s as [|c s IH]; intros ds r; cbn [span_digits].
  - intros [= <- <-]. constructor.
  - destruct (is_digit c) eqn:Hc; [|intros [= <- <-]; constructor].
    destruct (span_digits s) as [ds' r']. intros [= <- <-].
    constructor; [done|]. by eapply IH.
Qed.

Lemma normalise_integer (fuel : nat) (m : Z) : normalise fuel m 0 = mkNumber m 0.
Proof. by destruct fuel. Qed.

Lemma normalise_is_canonical (fuel : nat) (m e : Z) :
  m <> 0%Z -> (e < 0)%Z -> (Z.abs m < 10 ^ Z.of_nat fuel)%Z ->
  canonical (normalise fuel m e) = true.
Proof.
  revert m e. induction fuel as [|fuel IH]; intros m e Hm He Hbound.
  - cbn in Hbound. lia.
  - cbn [normalise]. destruct (Z.ltb_spec e 0) as [_|]; [|lia]. cbn [andb].
    destruct (Z.eqb_spec (m mod 10) 0) as [Hmod|Hmod].
    + pose proof (Z.div_mod m 10 ltac:(done)) as Hdiv. rewrite Hmod in Hdiv.
      rewrite Nat2Z.inj_succ, Z.pow_succ_r in Hbound by lia.
      destruct (Z.eq_dec (e + 1)%Z 0%Z) as [->|He'].
      * by rewrite normalise_integer.
      * apply IH; lia.
    + cbn [canonical]. apply andb_true_iff. split; [apply Z.leb_le; lia|].
      apply orb_true_iff. right. apply negb_true_iff. by apply Z.eqb_neq.
Qed.

(** The parser produces minus zero and numbers in the canonical form
    only. *)
Lemma parse_number_canonical (s r : list N) (n : number) :
  parse_number s = Some (n, r) -> n = MinusZero \/ canonical n = true.
Proof.
  unfold parse_number. destruct (parse_sign s) as [neg s0].
  destruct (span_digits s0) as [int s1] eqn:Hint. apply span_digits_digits in Hint.
  destruct int as [|d int']; [done|].
  destruct ((d =? 48)%N && negb (bool_decide (int' = []))); [done|].
  destruct (parse_fraction s1) as [[frac s2]|] eqn:Hfrac; [|done].
  assert (Forall (fun c => is_digit c = true) frac) as Hfd.
  { destruct s1 as [|c s']; [by injection Hfrac as <- _|]. cbn [parse_fraction] in Hfrac.
    destruct (c =? 46)%N; [|by injection Hfrac as <- _].
    destruct (span_digits s') as [frac' r'] eqn:Hf. apply span_digits_digits in Hf.
    destruct (bool_decide (frac' = [])); [done|]. by injection Hfrac as <- _. }
  cbn [mbind option_bind].
  destruct (parse_exponent s2) as [[e s3]|]; [|done]. cbn [mbind option_bind].
  intros [= <- _]. unfold number_of_literal. cbn zeta.
  set (l := d :: int' ++ frac).
  assert (Forall (fun c => is_digit c = true) l) as Hl.
  { subst l. rewrite app_comm_cons. by apply Forall_app. }
  pose proof (digits_value_bound l Hl) as Hbound.
  change ((d :: int') ++ frac) with l.
  set (m := if neg then (- Z.of_N (digits_value l))%Z else Z.of_N (digits_value l)).
  destruct (Z.eqb_spec m 0) as [|Hm]; [by destruct neg; auto|].
  right. destruct (Z.leb_spec 0 (e - Z.of_nat (length frac))) as [|He]; [done|].
  apply normalise_is_canonical; [done|done|].
  apply N2Z.inj_lt in Hbound. rewrite N2Z.inj_pow, nat_N_Z in Hbound.
  change (Z.of_N 10) with 10%Z in Hbound. subst m. destruct neg; lia.
Qed.

End number_round_trip.

(** ** Strings *)

Section string_round_trip.

Import JSON.

Lemma hex_value_digit (d : N) : (d < 16)%N -> hex_value (hex_digit d) = Some d.
Proof.
  intros Hd.
  assert (d ∈ [0; 1; 2; 3; 4; 5; 6; 7; 8; 9; 10; 11; 12; 13; 14; 15]%N) as Hin.
  { apply list_elem_of_In. cbn. lia. }
  repeat (apply elem_of_cons in Hin as [->|Hin]; [done|]).
  by apply not_elem_of_nil in Hin.
Qed.

Lemma hex4_escape (c : N) :
  (c < 65536)%N ->
  hex4 (hex_digit (c / 4096 mod 16)) (hex_digit (c / 256 mod 16))
       (hex_digit (c / 16 mod 16)) (hex_digit (c mod 16)) = Some c.
Proof.
  intros Hc. unfold hex4.
  rewrite !hex_value_digit by (by apply N.mod_lt). cbn [mbind option_bind].
  f_equal.
  pose proof (N.div_mod' c 16) as H1.
  pose proof (N.div_mod' (c / 16) 16) as H2.
  pose proof (N.div_mod' (c / 16 / 16) 16) as H3.
  rewrite N.Div0.div_div in H2. rewrite !N.Div0.div_div in H3.
  change (16 * 16 * 16)%N with 4096%N in *. change (16 * 16)%N with 256%N in *.
  assert (c / 4096 < 16)%N as H4 by (apply N.Div0.div_lt_upper_bound; lia).
  rewrite (N.mod_small (c / 4096)) in * by done. lia.
Qed.

Lemma parse_chars_literal (c : N) (tail : list N) :
  (c =? 34)%N = false -> (c =? 92)%N = false -> (c <? 32)%N = false ->
  parse_chars (c :: tail) = cons_unit c (parse_chars tail).
Proof. intros H1 H2 H3. cbn [parse_chars]. by rewrite H1, H2, H3. Qed.

Lemma parse_chars_simple (e u : N) (tail : list N) :
  (e =? 117)%N = false -> simple_escape e = Some u ->
  parse_chars (92%N :: e :: tail) = cons_unit u (parse_chars tail).
Proof. intros H1 H2. cbn [parse_chars]. by rewrite H1, H2. Qed.

Lemma parse_chars_unicode (c : N) (tail : list N) :
  (c < 65536)%N ->
  parse_chars (unicode_escape c ++ tail) = cons_unit c (parse_chars tail).
Proof.
  intros Hc. unfold unicode_escape. cbn [app parse_chars].
  change (92 =? 34)%N with false. change (92 =? 92)%N with true.
  change (117 =? 117)%N with true. cbn iota. by rewrite hex4_escape.
Qed.

Lemma parse_chars_quote_unit (c : N) (tail : list N) :
  parse_chars (quote_unit c ++ tail) = cons_unit c (parse_chars tail).
Proof.
  unfold quote_unit.
  destruct (N.eqb_spec c 8) as [->|?]; [by apply parse_chars_simple|].
  destruct (N.eqb_spec c 9) as [->|?]; [by apply parse_chars_simple|].
  destruct (N.eqb_spec c 10) as [->|?]; [by apply parse_chars_simple|].
  destruct (N.eqb_spec c 12) as [->|?]; [by apply parse_chars_simple|].
  destruct (N.eqb_spec c 13) as [->|?]; [by apply parse_chars_simple|].
  destruct (N.eqb_spec c 34) as [->|?]; [by apply parse_chars_simple|].
  destruct (N.eqb_spec c 92) as [->|?]; [by apply parse_chars_simple|].
  destruct ((c <? 32)%N || is_lead c || is_trail c) eqn:Hesc.
  - apply parse_chars_unicode.
    apply orb_true_iff in Hesc as [Hesc|Hesc];
      [apply orb_true_iff in Hesc as [Hesc|Hesc]|].
    + apply N.ltb_lt in Hesc. lia.
    + unfold is_lead in Hesc. apply andb_true_iff in Hesc as [_ ?%N.leb_le]. lia.
    + unfold is_trail in Hesc. apply andb_true_iff in Hesc as [_ ?%N.leb_le]. lia.
  - apply orb_false_iff in Hesc as [Hesc _]. apply orb_false_iff in Hesc as [Hesc _].
    cbn [app]. apply parse_chars_literal; [by apply N.eqb_neq..|done].
Qed.

Lemma parse_chars_pair (c d : N) (tail : list N) :
  is_lead c = true -> is_trail d = true ->
  parse_chars (c :: d :: tail) = cons_unit c (cons_unit d (parse_chars tail)).
Proof.
  unfold is_lead, is_trail.
  intros [?%N.leb_le ?%N.leb_le]%andb_true_iff [?%N.leb_le ?%N.leb_le]%andb_true_iff.
  rewrite !parse_chars_literal;
    [done|apply N.eqb_neq; lia|apply N.eqb_neq; lia|apply N.ltb_ge; lia
    |apply N.eqb_neq; lia|apply N.eqb_neq; lia|apply N.ltb_ge; lia].
Qed.

Lemma quote_units_cons (c d : N) (s : list N) :
  quote_units (c :: d :: s) =
    if is_lead c && is_trail d then c :: d :: quote_units s
    else quote_unit c ++ quote_units (d :: s).
Proof. done. Qed.

Lemma parse_chars_quote_units (s rest : list N) :
  parse_chars (quote_units s ++ 34%N :: rest) = Some (s, rest).
Proof.
  assert (forall n s, length s <= n ->
            parse_chars (quote_units s ++ 34%N :: rest) = Some (s, rest)) as Hind.
  { clear s. induction n as [|n IH]; intros s Hlen.
    - destruct s; [done|cbn in Hlen; lia].
    - destruct s as [|c [|d s]]; [done| |].
      + cbn [quote_units]. by rewrite parse_chars_quote_unit.
      + rewrite quote_units_cons. cbn [length] in Hlen.
        destruct (is_lead c && is_trail d) eqn:Hpair.
        * apply andb_true_iff in Hpair as [Hc Hd]. cbn [app].
          rewrite parse_chars_pair, IH by (done || lia). done.
        * rewrite <- app_assoc, parse_chars_quote_unit, IH by (cbn [length]; lia).
          done. }
  by apply (Hind (length s)).
Qed.

Lemma parse_chars_shorter (s str rest : list N) :
  parse_chars s = Some (str, rest) -> length rest < length s.
Proof.
  assert (forall n s str rest, length s <= n ->
            parse_chars s = Some (str, rest) -> length rest < length s) as Hind.
  { clear. induction n as [|n IH]; intros s str rest Hlen.
    - destruct s; [done|cbn in Hlen; lia].
    - destruct s as [|c s]; [done|]. cbn [parse_chars length] in *.
      destruct (c =? 34)%N; [intros [= <- <-]; lia|].
      destruct (c =? 92)%N.
      + destruct s as [|e s]; [done|]. cbn [length] in *.
        destruct (e =? 117)%N.
        * destruct s as [|h1 [|h2 [|h3 [|h4 r]]]]; try done.
          destruct (hex4 _ _ _ _); [|done].
          destruct (parse_chars r) as [[str' rest']|] eqn:Hr; [|done].
          intros [= <- <-]. apply IH in Hr; cbn [length] in *; lia.
        * destruct (simple_escape e); [|done].
          destruct (parse_chars s) as [[str' rest']|] eqn:Hr; [|done].
          intros [= <- <-]. apply IH in Hr; lia.
      + destruct (c <? 32)%N; [done|].
        destruct (parse_chars s) as [[str' rest']|] eqn:Hr; [|done].
        intros [= <- <-]. apply IH in Hr; lia. }
  by apply (Hind (length s)).
Qed.

End string_round_trip.

(** ** Values *)

Section value_round_trip.

Import JSON.

Lemma value_ind (P : value -> Prop) :
  P VNull ->
  (forall b, P (VBool b)) ->
  (forall n, P (VNumber n)) ->
  (forall s, P (VString s)) ->
  (forall proto l, Forall P l -> P (VArray proto l)) ->
  (forall proto fs, Forall (fun kv => P kv.2) fs -> P (VObject proto fs)) ->
  forall v, P v.
Proof.
  intros Hnull Hbool Hnum Hstr Harr Hobj.
  fix IH 1. intros [|b|n|s|proto l|proto fs];
    [apply Hnull|apply Hbool|apply Hnum|apply Hstr|apply Harr|apply Hobj].
  - induction l as [|x l IHl]; constructor; [apply IH|apply IHl].
  - induction fs as [|[k x] fs IHfs]; constructor; [apply IH|apply IHfs].
Qed.

(** A number, a string, a literal: what [parse_value] does on the first
    code unit. *)
Lemma parse_value_number (fuel : nat) (c : N) (s : list N) :
  (c =? 45)%N || is_digit c = true ->
  parse_value (S fuel) (c :: s) =
    match parse_number (c :: s) with
    | Some (n, rest) => Parsed (VNumber n) rest
    | None => Invalid
    end.
Proof.
  intros Hc.
  assert ((45 <= c <= 57)%N) as Hrange.
  { apply orb_true_iff in Hc as [->%N.eqb_eq|Hc]; [lia|].
    unfold is_digit in Hc. apply andb_true_iff in Hc as [?%N.leb_le ?%N.leb_le]. lia. }
  cbn [parse_value skip_ws]. unfold is_ws.
  destruct (N.eqb_spec c 9); [lia|]. destruct (N.eqb_spec c 10); [lia|].
  destruct (N.eqb_spec c 13); [lia|]. destruct (N.eqb_spec c 32); [lia|].
  cbn [orb]. destruct (N.eqb_spec c 123); [lia|]. destruct (N.eqb_spec c 91); [lia|].
  destruct (N.eqb_spec c 34); [lia|]. by rewrite Hc.
Qed.

Lemma serialize_head (v : value) :
  representable v = true -> exists c t, own_text v = c :: t /\ opens_value c.
Proof.
  destruct v as [|[]|n|s|proto l|proto fs]; intros Hv; try by eexists _, _.
  cbn in Hv. destruct (Number_toString_head n Hv) as (c & t & Hc & Hcls).
  exists c, t. split; [done|].
  assert ((45 <= c <= 57)%N) as Hrange.
  { apply orb_true_iff in Hcls as [->%N.eqb_eq|Hcls]; [lia|].
    unfold is_digit in Hcls.
    apply andb_true_iff in Hcls as [?%N.leb_le ?%N.leb_le]. lia. }
  unfold opens_value, is_ws.
  destruct (N.eqb_spec c 9); [lia|]. destruct (N.eqb_spec c 10); [lia|].
  destruct (N.eqb_spec c 13); [lia|]. destruct (N.eqb_spec c 32); [lia|].
  destruct (N.eqb_spec c 93); [lia|]. destruct (N.eqb_spec c 125); [lia|]. done.
Qed.

Lemma parse_elements_serialize (x : value) (l : list value) :
  Forall parses_back (x :: l) -> forallb representable (x :: l) = true ->
  forall acc rest fuel,
    2 * length (join_units [44%N] (own_text <$> x :: l)) + 2 <= fuel ->
    parse_elements fuel (join_units [44%N] (own_text <$> x :: l) ++ 93%N :: rest) acc
      = Parsed (VArray ArrayPrototype (acc ++ (plain <$> x :: l))) rest.
Proof.
  revert x. induction l as [|y l IH]; intros x Hall Hrep acc rest fuel Hfuel.
  - inversion Hall as [|?? Hx _]; subst. cbn in Hrep. rewrite andb_true_r in Hrep.
    cbn [fmap list_fmap join_units] in *.
    destruct fuel as [|fuel]; [lia|]. cbn [parse_elements].
    rewrite (Hx Hrep) by (done || lia). done.
  - inversion Hall as [|?? Hx Hall']; subst.
    cbn [forallb] in Hrep. apply andb_true_iff in Hrep as [Hrx Hrep].
    cbn [fmap list_fmap join_units] in *.
    fold (fmap (M:=list) own_text l) in *. fold (fmap (M:=list) plain l) in *.
    change (own_text y :: (own_text <$> l)) with (own_text <$> y :: l) in *.
    rewrite !length_app in Hfuel. cbn [length] in Hfuel.
    destruct fuel as [|fuel]; [lia|]. cbn [parse_elements].
    rewrite <- !app_assoc. rewrite (Hx Hrx) by (done || lia).
    cbn [app skip_ws is_ws N.eqb Pos.eqb orb]. cbn.
    rewrite (IH y Hall' Hrep) by lia.
    by rewrite <- app_assoc.
Qed.

Lemma set_field_fresh (key : list N) (v : value) (acc : list (list N * value)) :
  key ∉ acc.*1 -> set_field key v acc = acc ++ [(key, v)].
Proof.
  induction acc as [|[k x] acc IH]; [done|]. cbn [fmap list_fmap fst].
  intros Hnot. apply not_elem_of_cons in Hnot as [Hne Hnot].
  cbn [set_field app]. destruct (decide (k = key)); [done|]. by rewrite IH.
Qed.

Lemma member_text_app (k : list N) (x : value) (tail : list N) :
  member_text (k, x) ++ tail
    = 34%N :: quote_units k ++ 34%N :: 58%N :: own_text x ++ tail.
Proof.
  unfold member_text, QuoteJSONString. cbn [fst snd].
  change (units ":") with [58%N]. cbn [app]. by rewrite <- !app_assoc.
Qed.

Lemma member_text_length (k : list N) (x : value) :
  length (member_text (k, x)) = length (quote_units k) + length (own_text x) + 3.
Proof.
  unfold member_text, QuoteJSONString. cbn [fst snd].
  rewrite !length_app. cbn. lia.
Qed.

Lemma parse_members_step (fuel : nat) (k : list N) (x : value) (tail : list N)
    (acc : list (list N * value)) :
  parse_members (S fuel) (member_text (k, x) ++ tail) acc =
    match parse_value fuel (own_text x ++ tail) with
    | Parsed v s4 =>
        match skip_ws s4 with
        | c3 :: s5 =>
            if (c3 =? 44)%N then parse_members fuel s5 (set_field k v acc)
            else if (c3 =? 125)%N then
              Parsed (VObject ObjectPrototype (set_field k v acc)) s5
            else Invalid
        | [] => Invalid
        end
    | Invalid => Invalid
    | OutOfFuel => OutOfFuel
    end.
Proof.
  rewrite member_text_app. cbn [parse_members skip_ws].
  change (is_ws 34) with false. cbn iota. change (34 =? 34)%N with true. cbn iota.
  rewrite parse_chars_quote_units. cbn [skip_ws].
  change (is_ws 58) with false. cbn iota. change (58 =? 58)%N with true. done.
Qed.

Lemma parse_members_serialize (kx : list N * value) (fs : list (list N * value)) :
  Forall (fun kv => parses_back kv.2) (kx :: fs) ->
  forallb (fun kv => representable kv.2) (kx :: fs) = true ->
  forall acc rest fuel,
    NoDup (acc.*1 ++ (kx :: fs).*1) ->
    2 * length (join_units [44%N] (member_text <$> kx :: fs)) + 2 <= fuel ->
    parse_members fuel (join_units [44%N] (member_text <$> kx :: fs) ++ 125%N :: rest) acc
      = Parsed (VObject ObjectPrototype
                  (acc ++ ((fun kv => (kv.1, plain kv.2)) <$> kx :: fs))) rest.
Proof.
  revert kx. induction fs as [|ky fs IH];
    intros [k x] Hall Hrep acc rest fuel Hdup Hfuel.
  - inversion Hall as [|?? Hx _]; subst. cbn in Hrep. rewrite andb_true_r in Hrep.
    cbn [fst snd] in Hx.
    cbn [fmap list_fmap join_units] in *. rewrite member_text_length in Hfuel.
    destruct fuel as [|fuel]; [lia|].
    rewrite parse_members_step, (Hx Hrep) by (done || lia).
    cbn. rewrite set_field_fresh; [done|].
    apply NoDup_app in Hdup as (_ & Hdup & _). intros Hin.
    apply (Hdup k Hin). by left.
  - inversion Hall as [|?? Hx Hall']; subst.
    cbn [forallb] in Hrep. apply andb_true_iff in Hrep as [Hrx Hrep].
    cbn [fst snd] in Hx, Hrx.
    cbn [fmap list_fmap join_units] in *.
    fold (fmap (M:=list) member_text fs) in *.
    fold (fmap (M:=list) (fun kv : list N * value => (kv.1, plain kv.2)) fs) in *.
    fold (fmap (M:=list) (@fst (list N) value) fs) in *.
    change (member_text ky :: (member_text <$> fs)) with (member_text <$> ky :: fs) in *.
    rewrite !length_app, member_text_length in Hfuel. cbn [length] in Hfuel.
    destruct fuel as [|fuel]; [lia|].
    rewrite <- !app_assoc, parse_members_step, (Hx Hrx) by (done || lia).
    cbn [app skip_ws]. change (is_ws 44) with false. cbn iota.
    change (44 =? 44)%N with true. cbn iota.
    assert (k ∉ acc.*1) as Hfresh.
    { apply NoDup_app in Hdup as (_ & Hdup & _). intros Hin.
      apply (Hdup k Hin). by left. }
    rewrite set_field_fresh by done.
    rewrite (IH ky Hall' Hrep); [by rewrite <- app_assoc| |lia].
    rewrite fmap_app, <- app_assoc. done.
Qed.

Lemma join_units_head (sep : list N) (c : N) (t : list N) (l : list (list N)) :
  exists t', join_units sep ((c :: t) :: l) = c :: t'.
Proof. destruct l; by eexists. Qed.

(** Every representable value is parsed back from its serialization, up
    to the prototypes, whatever delimiter follows. *)
Lemma parse_value_serialize (v : value) : parses_back v.
Proof.
  induction v as [|b|n|s|proto l IHl|proto fs IHfs] using value_ind;
    intros Hrep rest fuel Hrest Hfuel.
  - destruct fuel as [|fuel]; [cbn in Hfuel; lia|]. done.
  - destruct fuel as [|fuel]; [cbn in Hfuel; lia|]. by destruct b.
  - cbn in Hrep. destruct fuel as [|fuel]; [lia|]. cbn [own_text plain].
    destruct (Number_toString_head n Hrep) as (c & t & Hc & Hcls).
    pose proof (parse_number_toString n rest Hrep Hrest) as Hparse.
    rewrite Hc in *. cbn [app] in *.
    by rewrite parse_value_number, Hparse.
  - destruct fuel as [|fuel]; [lia|]. cbn [own_text plain].
    unfold QuoteJSONString. cbn [app parse_value skip_ws].
    change (is_ws 34) with false. cbn iota.
    change (34 =? 123)%N with false. change (34 =? 91)%N with false.
    change (34 =? 34)%N with true. cbn iota.
    rewrite <- app_assoc. cbn [app]. by rewrite parse_chars_quote_units.
  - cbn [representable] in Hrep. cbn [own_text plain] in *.
    change (units "[") with [91%N] in *. change (units "]") with [93%N] in *.
    change (units ",") with [44%N] in *.
    destruct fuel as [|fuel]; [lia|].
    destruct l as [|x l]; [done|].
    destruct (serialize_head x) as (c & t & Hc & Hws & Hclose & _).
    { cbn in Hrep. by apply andb_true_iff in Hrep as [? _]. }
    pose proof (parse_elements_serialize x l IHl Hrep [] rest fuel) as Hel.
    rewrite !length_app in Hfuel. cbn [length] in Hfuel.
    specialize (Hel ltac:(lia)).
    cbn [app]. rewrite <- app_assoc. cbn [app parse_value skip_ws].
    change (is_ws 91) with false. cbn iota.
    change (91 =? 123)%N with false. change (91 =? 91)%N with true. cbn iota.
    assert (exists t', join_units [44%N] (own_text <$> x :: l) = c :: t') as [t' Ht'].
    { cbn [fmap list_fmap]. rewrite Hc. apply join_units_head. }
    rewrite Ht' in *. cbn [app skip_ws]. by rewrite Hws, Hclose.
  - cbn [representable] in Hrep. apply andb_true_iff in Hrep as [Hdup Hrep].
    apply bool_decide_eq_true in Hdup.
    cbn [own_text plain] in *.
    change (fun kv : list N * value => QuoteJSONString kv.1 ++ units ":" ++ own_text kv.2)
      with member_text in *.
    change (units "{") with [123%N] in *. change (units "}") with [125%N] in *.
    change (units ",") with [44%N] in *.
    destruct fuel as [|fuel]; [lia|].
    destruct fs as [|[k x] fs]; [done|].
    pose proof (parse_members_serialize (k, x) fs IHfs Hrep [] rest fuel) as Hmem.
    rewrite !length_app in Hfuel. cbn [length] in Hfuel.
    specialize (Hmem Hdup ltac:(lia)).
    cbn [app]. rewrite <- app_assoc. cbn [app parse_value skip_ws].
    change (is_ws 123) with false. cbn iota.
    change (123 =? 123)%N with true. cbn iota.
    assert (exists t', join_units [44%N] (member_text <$> (k, x) :: fs) = 34%N :: t')
      as [t' Ht'].
    { cbn [fmap list_fmap]. unfold member_text at 1, QuoteJSONString.
      cbn [app]. apply join_units_head. }
    rewrite Ht' in *. cbn [app skip_ws].
    change (is_ws 34) with false. cbn iota. change (34 =? 125)%N with false.
    cbn iota. done.
Qed.

Lemma existsb_false_lookup {A : Type} (f : A -> bool) (l : list A) (i : nat) (x : A) :
  existsb f l = false -> l !! i = Some x -> f x = false.
Proof.
  intros Hex Hx. destruct (f x) eqn:Hfx; [|done].
  rewrite <- Hex. symmetry. apply existsb_exists. exists x. split; [|done].
  by apply list_elem_of_In, list_elem_of_lookup_2 with i.
Qed.

(** Where no [toJSON] method is found, the text is that of the own
    fields. *)
Lemma serialize_own_text (v : value) :
  calls_toJSON v = false -> serialize v = own_text v.
Proof.
  induction v as [|b|n|s|proto l IHl|proto fs IHfs] using value_ind;
    intros Hcalls; try done.
  - cbn [calls_toJSON] in Hcalls. apply orb_false_iff in Hcalls as [Hproto Hl].
    assert (serialize <$> l = own_text <$> l) as Heq.
    { apply list_fmap_ext. intros i x Hx.
      eapply Forall_lookup_1 in IHl; [|done]. apply IHl.
      by eapply existsb_false_lookup. }
    destruct proto; try done; cbn [serialize serialize_value own_text]; by rewrite Heq.
  - cbn [calls_toJSON] in Hcalls. apply orb_false_iff in Hcalls as [Hproto Hfs].
    assert ((fun kv : list N * value => QuoteJSONString kv.1 ++ units ":" ++ serialize kv.2)
              <$> fs
            = (fun kv => QuoteJSONString kv.1 ++ units ":" ++ own_text kv.2) <$> fs) as Heq.
    { apply list_fmap_ext. intros i [k x] Hx.
      eapply Forall_lookup_1 in IHfs; [|done]. cbn in *. rewrite IHfs; [done|].
      by apply (existsb_false_lookup _ _ _ _ Hfs Hx). }
    destruct proto; cbn [serialize serialize_value own_text]; try by rewrite Heq.
    cbn [has_toJSON andb] in Hproto. apply negb_false_iff in Hproto.
    rewrite Hproto. cbn [serialize_value]. by rewrite Heq.
Qed.

Lemma parse_stringify (v : value) :
  representable v = true -> calls_toJSON v = false ->
  JSON.parse (JSON.stringify v) = Normal (plain v).
Proof.
  intros Hrep Hcalls. unfold JSON.parse, JSON.stringify.
  rewrite (serialize_own_text v Hcalls).
  rewrite <- (app_nil_r (own_text v)) at 2.
  rewrite (parse_value_serialize v Hrep []) by (done || lia). done.
Qed.

End value_round_trip.

(** ** Fuel *)

Section parser_fuel.

Import JSON.

(** A result reached with some fuel is reached with more. *)
Lemma parse_fuel_succ (fuel : nat) :
  (forall s, parse_value fuel s <> OutOfFuel ->
     parse_value (S fuel) s = parse_value fuel s)
  /\ (forall s acc, parse_elements fuel s acc <> OutOfFuel ->
     parse_elements (S fuel) s acc = parse_elements fuel s acc)
  /\ (forall s acc, parse_members fuel s acc <> OutOfFuel ->
     parse_members (S fuel) s acc = parse_members fuel s acc).
Proof.
  induction fuel as [|fuel (IHv & IHe & IHm)]; [by split_and!|].
  split_and!.
  - intros s. remember (S fuel) as fuel' eqn:Hf.
    rewrite Hf at 1 3. cbn [parse_value]. subst fuel'.
    repeat case_match; try done; intros Hne; by (apply IHm || apply IHe).
  - intros s acc. remember (S fuel) as fuel' eqn:Hf.
    rewrite Hf at 1 3. cbn [parse_elements]. subst fuel'.
    destruct (parse_value fuel s) as [v s1| |] eqn:Hv; [| |congruence];
      (rewrite (IHv s), Hv by (rewrite Hv; congruence)); [|done].
    repeat case_match; try done; intros Hne; by apply IHe.
  - intros s acc. remember (S fuel) as fuel' eqn:Hf.
    rewrite Hf at 1 3. cbn [parse_members]. subst fuel'.
    destruct (skip_ws s) as [|c s1]; [done|].
    destruct (c =? 34)%N; [|done].
    destruct (parse_chars s1) as [[key s2]|]; [|done].
    destruct (skip_ws s2) as [|c2 s3]; [done|].
    destruct (c2 =? 58)%N; [|done].
    destruct (parse_value fuel s3) as [v s4| |] eqn:Hv; [| |congruence];
      (rewrite (IHv s3), Hv by (rewrite Hv; congruence)); [|done].
    repeat case_match; try done; intros Hne; by apply IHm.
Qed.

Lemma parse_value_fuel_le (fuel fuel' : nat) (s : list N) :
  fuel <= fuel' -> parse_value fuel s <> OutOfFuel ->
  parse_value fuel' s = parse_value fuel s.
Proof.
  induction 1 as [|fuel' _ IH]; [done|]. intros Hne.
  rewrite <- (IH Hne). apply parse_fuel_succ. by rewrite (IH Hne).
Qed.

Lemma skip_ws_length (s : list N) : length (skip_ws s) <= length s.
Proof.
  induction s as [|c s IH]; [done|]. cbn [skip_ws].
  destruct (is_ws c); cbn [length]; lia.
Qed.

Lemma skip_ws_cons (s s1 : list N) (c : N) :
  skip_ws s = c :: s1 -> length s1 < length s.
Proof. intros Hs. pose proof (skip_ws_length s) as Hlen. rewrite Hs in Hlen. cbn in Hlen. lia. Qed.

Lemma strip_prefix_length (p s r : list N) :
  strip_prefix p s = Some r -> length p + length r = length s.
Proof.
  revert s. induction p as [|a p IH]; intros [|b s]; cbn [strip_prefix length];
    try (by intros [= <-]); try done.
  destruct (a =? b)%N; [|done]. intros Hr%IH. lia.
Qed.

Lemma span_digits_length (s ds r : list N) :
  span_digits s = (ds, r) -> length ds + length r = length s.
Proof.
  revert ds r. induction s as [|c s IH]; intros ds r; cbn [span_digits].
  - by intros [= <- <-].
  - destruct (is_digit c); [|by intros [= <- <-]].
    destruct (span_digits s) as [ds' r']. intros [= <- <-].
    specialize (IH _ _ eq_refl). cbn [length]. lia.
Qed.

Lemma parse_sign_length (s : list N) : length (parse_sign s).2 <= length s.
Proof.
  destruct s as [|c s']; [done|]. cbn [parse_sign].
  destruct (c =? 45)%N; cbn; lia.
Qed.

Lemma parse_fraction_length (s frac r : list N) :
  parse_fraction s = Some (frac, r) -> length r <= length s.
Proof.
  destruct s as [|c s']; [by intros [= <- <-]|]. cbn [parse_fraction].
  destruct (c =? 46)%N; [|by intros [= <- <-]].
  destruct (span_digits s') as [frac' r'] eqn:Hf. apply span_digits_length in Hf.
  destruct (bool_decide (frac' = [])); [done|]. intros [= <- <-]. cbn [length]. lia.
Qed.

Lemma parse_exponent_length (s r : list N) (e : Z) :
  parse_exponent s = Some (e, r) -> length r <= length s.
Proof.
  destruct s as [|c s']; [by intros [= <- <-]|]. cbn [parse_exponent].
  destruct ((c =? 101)%N || (c =? 69)%N); [|by intros [= <- <-]].
  set (esign := match s' with
                | [] => (false, s')
                | c' :: r =>
                    if (c' =? 43)%N then (false, r)
                    else if (c' =? 45)%N then (true, r)
                    else (false, s')
                end).
  assert (length esign.2 <= length s') as Hes.
  { subst esign. destruct s' as [|c' r']; [done|].
    destruct (c' =? 43)%N; [cbn; lia|]. destruct (c' =? 45)%N; cbn; lia. }
  destruct esign as [eneg s'']. cbn [snd] in Hes.
  destruct (span_digits s'') as [eds r'] eqn:He. apply span_digits_length in He.
  destruct (bool_decide (eds = [])); [done|]. intros [= <- <-]. cbn [length]. lia.
Qed.

Lemma parse_number_shorter (s r : list N) (n : number) :
  parse_number s = Some (n, r) -> length r < length s.
Proof.
  unfold parse_number. pose proof (parse_sign_length s) as Hsign.
  destruct (parse_sign s) as [neg s0]. cbn [snd] in Hsign.
  destruct (span_digits s0) as [int s1] eqn:Hint. apply span_digits_length in Hint.
  destruct int as [|d int']; [done|]. cbn [length] in Hint.
  destruct ((d =? 48)%N && negb (bool_decide (int' = []))); [done|].
  destruct (parse_fraction s1) as [[frac s2]|] eqn:Hfrac; [|done].
  apply parse_fraction_length in Hfrac. cbn [mbind option_bind].
  destruct (parse_exponent s2) as [[e s3]|] eqn:Hexp; [|done].
  apply parse_exponent_length in Hexp. cbn [mbind option_bind].
  intros [= <- <-]. lia.
Qed.

(** A parsed value takes up at least one code unit. *)
Lemma parse_consumes (fuel : nat) :
  (forall s v r, parse_value fuel s = Parsed v r -> length r < length s)
  /\ (forall s acc v r, parse_elements fuel s acc = Parsed v r -> length r < length s)
  /\ (forall s acc v r, parse_members fuel s acc = Parsed v r -> length r < length s).
Proof.
  induction fuel as [|fuel (IHv & IHe & IHm)]; [by split_and!|].
  split_and!.
  - intros s v r. cbn [parse_value].
    destruct (skip_ws s) as [|c s1] eqn:Hs; [done|]. apply skip_ws_cons in Hs as Hs1.
    pose proof (skip_ws_length s) as Hlen. rewrite Hs in Hlen. cbn [length] in Hlen.
    destruct (c =? 123)%N.
    { destruct (skip_ws s1) as [|c' s2] eqn:Hs2; [done|]. apply skip_ws_cons in Hs2.
      destruct (c' =? 125)%N; [intros [= <- <-]; lia|]. intros Hr%IHm. lia. }
    destruct (c =? 91)%N.
    { destruct (skip_ws s1) as [|c' s2] eqn:Hs2; [done|]. apply skip_ws_cons in Hs2.
      destruct (c' =? 93)%N; [intros [= <- <-]; lia|]. intros Hr%IHe. lia. }
    destruct (c =? 34)%N.
    { destruct (parse_chars s1) as [[str rest]|] eqn:Hstr; [|done].
      apply parse_chars_shorter in Hstr. intros [= <- <-]. lia. }
    destruct ((c =? 45)%N || is_digit c).
    { destruct (parse_number (c :: s1)) as [[n rest]|] eqn:Hn; [|done].
      apply parse_number_shorter in Hn. cbn [length] in Hn. intros [= <- <-]. lia. }
    destruct (strip_prefix (units "null") (c :: s1)) as [rest|] eqn:H1.
    { apply strip_prefix_length in H1. cbn [length] in H1. intros [= <- <-]. cbn in H1. lia. }
    destruct (strip_prefix (units "true") (c :: s1)) as [rest|] eqn:H2.
    { apply strip_prefix_length in H2. cbn [length] in H2. intros [= <- <-]. cbn in H2. lia. }
    destruct (strip_prefix (units "false") (c :: s1)) as [rest|] eqn:H3; [|done].
    apply strip_prefix_length in H3. cbn [length] in H3. intros [= <- <-]. cbn in H3. lia.
  - intros s acc v r. cbn [parse_elements].
    destruct (parse_value fuel s) as [v1 s1| |] eqn:Hv; [|done..]. apply IHv in Hv.
    destruct (skip_ws s1) as [|c s2] eqn:Hs; [done|]. apply skip_ws_cons in Hs.
    destruct (c =? 44)%N; [intros Hr%IHe; lia|].
    destruct (c =? 93)%N; [|done]. intros [= <- <-]. lia.
  - intros s acc v r. cbn [parse_members].
    destruct (skip_ws s) as [|c s1] eqn:Hs; [done|]. apply skip_ws_cons in Hs.
    destruct (c =? 34)%N; [|done].
    destruct (parse_chars s1) as [[key s2]|] eqn:Hkey; [|done].
    apply parse_chars_shorter in Hkey.
    destruct (skip_ws s2) as [|c2 s3] eqn:Hs2; [done|]. apply skip_ws_cons in Hs2.
    destruct (c2 =? 58)%N; [|done].
    destruct (parse_value fuel s3) as [v1 s4| |] eqn:Hv; [|done..]. apply IHv in Hv.
    destruct (skip_ws s4) as [|c3 s5] eqn:Hs4; [done|]. apply skip_ws_cons in Hs4.
    destruct (c3 =? 44)%N; [intros Hr%IHm; lia|].
    destruct (c3 =? 125)%N; [|done]. intros [= <- <-]. lia.
Qed.

(** Twice the length of the text, and one more, is fuel enough. *)
Lemma parse_fuel_enough (fuel : nat) :
  (forall s, 2 * length s + 1 <= fuel -> parse_value fuel s <> OutOfFuel)
  /\ (forall s acc, 2 * length s + 2 <= fuel -> parse_elements fuel s acc <> OutOfFuel)
  /\ (forall s acc, 2 * length s + 2 <= fuel -> parse_members fuel s acc <> OutOfFuel).
Proof.
  induction fuel as [|fuel (IHv & IHe & IHm)]; [split_and!; intros; lia|].
  destruct (parse_consumes fuel) as (Hcv & _ & _).
  split_and!.
  - intros s Hfuel. cbn [parse_value].
    destruct (skip_ws s) as [|c s1] eqn:Hs; [done|]. apply skip_ws_cons in Hs.
    repeat case_match; try done;
      match goal with
      | H : skip_ws s1 = _ :: _ |- _ => apply skip_ws_cons in H
      end; (apply IHm || apply IHe); lia.
  - intros s acc Hfuel. cbn [parse_elements].
    destruct (parse_value fuel s) as [v1 s1| |] eqn:Hv; [|done|].
    + apply Hcv in Hv.
      destruct (skip_ws s1) as [|c s2] eqn:Hs; [done|]. apply skip_ws_cons in Hs.
      destruct (c =? 44)%N; [apply IHe; lia|]. by destruct (c =? 93)%N.
    + exfalso. revert Hv. apply IHv. lia.
  - intros s acc Hfuel. cbn [parse_members].
    destruct (skip_ws s) as [|c s1] eqn:Hs; [done|]. apply skip_ws_cons in Hs.
    destruct (c =? 34)%N; [|done].
    destruct (parse_chars s1) as [[key s2]|] eqn:Hkey; [|done].
    apply parse_chars_shorter in Hkey.
    destruct (skip_ws s2) as [|c2 s3] eqn:Hs2; [done|]. apply skip_ws_cons in Hs2.
    destruct (c2 =? 58)%N; [|done].
    destruct (parse_value fuel s3) as [v1 s4| |] eqn:Hv; [|done|].
    + apply Hcv in Hv.
      destruct (skip_ws s4) as [|c3 s5] eqn:Hs4; [done|]. apply skip_ws_cons in Hs4.
      destruct (c3 =? 44)%N; [apply IHm; lia|]. by destruct (c3 =? 125)%N.
    + exfalso. revert Hv. apply IHv. lia.
Qed.

(** [JSON.parse] accepts exactly the valid texts, with the value the
    grammar gives them, and throws a [SyntaxError] on every other. *)
Lemma parse_valid (text : list N) :
  valid_JSON text <-> exists v, JSON.parse text = Normal v.
Proof.
  unfold valid_JSON, JSON.parse. split.
  - intros (fuel & v & rest & Hv & Hrest). exists v.
    assert (parse_value (2 * length text + 1) text = Parsed v rest) as ->.
    { destruct (Nat.le_ge_cases fuel (2 * length text + 1)) as [Hle|Hle].
      - rewrite (parse_value_fuel_le _ _ _ Hle), Hv; by rewrite ?Hv.
      - rewrite <- Hv. symmetry. apply parse_value_fuel_le; [done|].
        by apply parse_fuel_enough. }
    by rewrite Hrest.
  - intros [v Hv]. exists (2 * length text + 1).
    destruct (parse_value _ text) as [v' rest| |]; [|done..].
    exists v', rest. split; [done|]. by destruct (skip_ws rest).
Qed.

Lemma parse_invalid (text : list N) :
  ~ valid_JSON text <-> JSON.parse text = Throw SyntaxError.
Proof.
  rewrite parse_valid. split.
  - intros Hnot. unfold JSON.parse in *.
    destruct (parse_value _ text) as [v rest| |]; [|done..].
    destruct (skip_ws rest); [|done]. destruct Hnot. by eexists.
  - intros Hthrow [v Hv]. congruence.
Qed.

End parser_fuel.

(** * The claims about the JSON helpers *)

Lemma fromJSON_unfold (Proto : prototype) (json : list N) (h : heap) :
  fromJSON Proto json h =
    match JSON.parse json with
    | Normal VNull => (Throw TypeError, h)
    | Normal (VArray proto l) =>
        (Normal (VArray Proto l), h ++ [(VArray proto l, Proto)])
    | Normal (VObject proto fs) =>
        (Normal (VObject Proto fs), h ++ [(VObject proto fs, Proto)])
    | Normal v => (Normal v, h)
    | Throw e => (Throw e, h)
    end.
Proof.
  unfold fromJSON, pure, mbind, method_bind.
  by destruct (JSON.parse json) as [[]|].
Qed.




(** C8: for every prototype and every text that is not valid JSON,
    [fromJSON] throws the host's [SyntaxError] (the parse error), and does so
    before any prototype is attached: the heap is as it was. *)
Theorem C8_invalid_text_throws (Proto : prototype) (json : list N) (h : heap) :
  ~ valid_JSON json ->
  fromJSON Proto json h = (Throw ParseError, h)
  /\ JSON.parse json = Throw ParseError.
Proof.
  intros Hinvalid%parse_invalid. by rewrite fromJSON_unfold, Hinvalid.
Qed.

Lemma C8_invalid_text_throws_witness :
  fromJSON (ObjectRef 7) (units "{") [] = (Throw ParseError, [])
  /\ fromJSON (ObjectRef 7) (units "[1,]") [] = (Throw ParseError, []).
Proof.
  split.
  - apply (C8_invalid_text_throws (ObjectRef 7) (units "{") []).
    apply parse_invalid. by vm_compute.
  - apply (C8_invalid_text_throws (ObjectRef 7) (units "[1,]") []).
    apply parse_invalid. by vm_compute.
Defined.

(** C10: some valid JSON texts do not give an object with the prototype
    attached.  On the text null, and on every text that parses to [null],
    [fromJSON] throws a [TypeError], which is no parse error; on every text
    that parses to a number, a string or a boolean it returns that bare
    primitive and attaches nothing. *)
Theorem C10_non_object_texts :
  (forall Proto h, fromJSON Proto (units "null") h = (Throw TypeError, h))
  /\ (forall Proto json h, JSON.parse json = Normal VNull ->
       fromJSON Proto json h = (Throw TypeError, h))
  /\ (forall Proto json p h, JSON.parse json = Normal p -> is_primitive p = true ->
       fromJSON Proto json h = (Normal p, h) /\ prototype_of p = None)
  /\ (forall Proto h,
       fromJSON Proto (units "5") h = (Normal (VNumber (mkNumber 5 0)), h)
       /\ fromJSON Proto (units "true") h = (Normal (VBool true), h)
       /\ fromJSON Proto ([34%N] ++ units "abc" ++ [34%N]) h
           = (Normal (VString (units "abc")), h))
  /\ valid_JSON (units "null")
  /\ TypeError <> ParseError.
Proof.
  split_and!; try done.
  - intros Proto json h Hparse. by rewrite fromJSON_unfold, Hparse.
  - intros Proto json p h Hparse Hprim. rewrite fromJSON_unfold, Hparse.
    by destruct p.
  - apply parse_valid. by eexists.
Qed.

Lemma C10_non_object_texts_witness :
  fromJSON (ObjectRef 7) (units " null ") [] = (Throw TypeError, [])
  /\ fromJSON (ObjectRef 7) (units "-12") [] = (Normal (VNumber (mkNumber (-12) 0)), []).
Proof.
  split.
  - apply (proj1 (proj2 C10_non_object_texts)). by vm_compute.
  - apply (proj1 (proj2 (proj2 C10_non_object_texts))); by vm_compute.
Defined.


(** * Further properties of the selector chain *)

Section chain_further.

Implicit Types (c : NEWcssSelectorBuilder) (k : category) (v : string).

Lemma string_app_nonempty (s t : string) : t <> "" -> s +:+ t <> "".
Proof. destruct s as [|a s]; [done|]. by rewrite string_app_cons. Qed.

Lemma wrap_nonempty_other k v : k <> Element -> wrap k v <> "".
Proof. by destruct k. Qed.

Lemma truthy_false_fragment c k : truthy (selector c !! slot k) = false -> fragment c k = "".
Proof.
  unfold fragment. destruct (selector c !! slot k) as [x|]; [|done]. cbn.
  by intros ->%negb_false_iff%String.eqb_eq.
Qed.

(** X1: a category call returns exactly when its category is not earlier
    than the last recorded one and, for element, id and pseudo-element, the
    stored fragment is absent or empty; it then stores the old fragment
    followed by the text of the call and records the category. *)
Theorem call_returns_iff c k v :
  (exists c', call k v c = (Normal c', c'))
  <-> (index_last c <= index k)%Z
      /\ (singleton k = true -> truthy (selector c !! slot k) = false).
Proof.
  split.
  - intros [c' Hc]. apply call_normal in Hc as (_ & Hle & _ & _ & _ & Hs). done.
  - intros [Hle Hs].
    destruct (call_outcome k v c) as [[_ ?]|[(_ & _ & Hsing & Ht)|(c' & Hc & _)]];
      [lia| |by exists c'].
    rewrite (Hs Hsing) in Ht. done.
Qed.

Lemma call_returns_iff_witness :
  exists c', call Class "b" (snd (chain_calls [(Id, "m"); (Class, "a")] Chain.new))
               = (Normal c', c').
Proof.
  apply call_returns_iff. split; [by vm_compute|done].
Defined.

Lemma index_inj k k' : index k = index k' -> k = k'.
Proof. by destruct k, k'. Qed.

Lemma index_last_recorded c (ks : list category) :
  recorded c ks -> index_last c = from_option index (-1)%Z (last ks).
Proof.
  unfold recorded, index_last. intros ->. rewrite fmap_last.
  by destruct (last ks).
Qed.

Lemma sorted_le_last (ks : list category) (a : category) :
  StronglySorted (fun a b => (index a < index b)%Z) ks -> a ∈ ks ->
  (index a <= from_option index (-1)%Z (last ks))%Z.
Proof.
  induction 1 as [|b ks Hs IH Hall]; [by intros ?%not_elem_of_nil|].
  intros [->|Hin]%elem_of_cons.
  - destruct ks as [|b' ks']; [done|]. rewrite last_cons_cons.
    destruct (proj2 (last_is_Some (b' :: ks')) ltac:(done)) as [z Hz].
    rewrite Hz. cbn.
    apply last_Some_elem_of in Hz. rewrite Forall_forall in Hall.
    specialize (Hall z Hz). cbn in Hall. lia.
  - destruct ks as [|b' ks']; [by apply not_elem_of_nil in Hin|].
    rewrite last_cons_cons. by apply IH.
Qed.

(** The record and the store of a chain a program can hold. *)
Lemma reachable_recorded c :
  reachable c ->
  exists ks, recorded c ks
    /\ StronglySorted (fun a b => (index a < index b)%Z) ks
    /\ forall k, k ∈ ks <-> is_Some (selector c !! slot k).
Proof.
  induction 1 as [|c k v Hc (ks & Hrec & Hsorted & Hdom)].
  { exists []. split_and!; [done|constructor|]. intros k. cbn. rewrite lookup_empty.
    split; [by intros ?%not_elem_of_nil|by intros [? ?]]. }
  pose proof (reachable_inv c Hc) as Hinv.
  pose proof (index_last_recorded c ks Hrec) as Hlast.
  destruct (call_outcome k v c) as [[-> _]|[(Hcall & Hle & Hsing & Ht)|(c' & -> & Hle & Ho & Hs & _)]];
    cbn [snd]; [by exists ks| |].
  { destruct (call_throw_state k v c DuplicateCategoryError Hinv) as [-> _];
      [by rewrite Hcall|by exists ks]. }
  assert (forall k', is_Some (selector c' !! slot k') <->
                     k' = k \/ is_Some (selector c !! slot k')) as Hdom'.
  { intros k'. rewrite Hs. destruct (decide (k' = k)) as [->|Hne].
    - rewrite lookup_insert_eq. split; [by left|by eexists].
    - rewrite lookup_insert_ne by (intros Heq%slot_index_inj; done).
      split; [by right|]. by intros [?|?]. }
  destruct (Z.ltb_spec (index_last c) (index k)) as [Hlt|Hge].
  - exists (ks ++ [k]). split_and!.
    + unfold recorded in *. rewrite Ho. unfold advance.
      destruct (Z.ltb_spec (index_last c) (index k)); [|lia].
      cbn [order]. by rewrite Hrec, fmap_app.
    + apply StronglySorted_app_2; [|done|repeat constructor].
      intros a b Ha ->%list_elem_of_singleton.
      pose proof (sorted_le_last ks a Hsorted Ha). lia.
    + intros k'. rewrite elem_of_app, list_elem_of_singleton, Hdom', Hdom. tauto.
  - assert (index_last c = index k) as Heq by lia.
    assert (k ∈ ks) as Hk.
    { rewrite Hlast in Heq. destruct (last ks) as [z|] eqn:Hz.
      - cbn [from_option] in Heq. apply index_inj in Heq as ->.
        by apply last_Some_elem_of.
      - cbn [from_option] in Heq. pose proof (index_bounds k). lia. }
    exists ks. split_and!; [|done|].
    + unfold recorded in *. by rewrite Ho, advance_id.
    + intros k'. rewrite Hdom', Hdom. split; [tauto|].
      intros [->|?]; [by apply Hdom|done].
Qed.

(** X2: on every chain a program can hold, [order] names exactly the
    categories that have a key in the store, each once, in strictly
    increasing canonical order; so it never has more than six entries. *)
Theorem order_lists_stored_categories c :
  reachable c ->
  exists ks, order c = name <$> ks
    /\ StronglySorted (fun a b => (index a < index b)%Z) ks
    /\ (forall k, k ∈ ks <-> is_Some (selector c !! slot k))
    /\ length (order c) <= 6.
Proof.
  intros Hc. destruct (reachable_recorded c Hc) as (ks & Hrec & Hsorted & Hdom).
  exists ks. split_and!; try done.
  rewrite Hrec, length_fmap.
  assert (NoDup ks) as Hnd.
  { clear -Hsorted. induction Hsorted as [|a ks _ IH Hall]; constructor; [|done].
    intros Hin. rewrite Forall_forall in Hall. specialize (Hall a Hin). cbn in Hall. lia. }
  assert (ks ⊆+ categories) as Hsub.
  { apply NoDup_submseteq; [done|]. intros k _.
    destruct k; by apply (bool_decide_unpack _); vm_compute. }
  apply submseteq_length in Hsub. done.
Qed.

Lemma order_lists_stored_categories_witness :
  exists ks,
    order (snd (chain_calls [(Id, "m"); (Class, "a"); (Id, "n"); (Class, "b")] Chain.new))
      = name <$> ks
    /\ length ks <= 6.
Proof.
  destruct (order_lists_stored_categories
              (snd (chain_calls [(Id, "m"); (Class, "a"); (Id, "n"); (Class, "b")] Chain.new)))
    as (ks & Hks & _ & _ & Hlen); [apply reachable_chain_calls, reachable_new|].
  exists ks. split; [done|]. by rewrite Hks, length_fmap in Hlen.
Defined.

(** Only the element fragment can be empty. *)
Lemma reachable_nonempty c k x :
  reachable c -> k <> Element -> selector c !! slot k = Some x -> x <> "".
Proof.
  intros Hc Hk. revert x. induction Hc as [|c k' v Hc IH]; intros x.
  { cbn. by rewrite lookup_empty. }
  pose proof (reachable_inv c Hc) as Hinv.
  destruct (call_outcome k' v c) as [[-> _]|[(Hcall & _)|(c' & -> & _ & _ & Hs & _)]];
    cbn [snd]; [apply IH| |].
  { destruct (call_throw_state k' v c DuplicateCategoryError Hinv) as [-> _];
      [by rewrite Hcall|apply IH]. }
  rewrite Hs. destruct (decide (k = k')) as [<-|Hne].
  - rewrite lookup_insert_eq. intros [= <-].
    by apply string_app_nonempty, wrap_nonempty_other.
  - rewrite lookup_insert_ne by (intros Heq%slot_index_inj; done). apply IH.
Qed.

(** X3: on a chain a program can hold, a category call that returns
    extends what [stringify()] returns by exactly the text of that call. *)
Theorem stringify_after_call c c' k v :
  reachable c -> call k v c = (Normal c', c') ->
  exists s, Chain.stringify c = (Normal s, c)
    /\ Chain.stringify c' = (Normal (s +:+ wrap k v), c').
Proof.
  intros Hc Hcall. pose proof (reachable_inv c Hc) as Hinv.
  pose proof (chain_inv_call k v c Hinv) as Hinv'. rewrite Hcall in Hinv'.
  exists (render c). rewrite !stringify_render by done.
  by rewrite (render_call k v c c').
Qed.

Lemma stringify_after_call_witness :
  exists s,
    Chain.stringify (snd (chain_calls [(Element, "a"); (Class, "b")] Chain.new))
      = (Normal s, snd (chain_calls [(Element, "a"); (Class, "b")] Chain.new))
    /\ fst (Chain.stringify
              (snd (call PseudoClass "hover"
                      (snd (chain_calls [(Element, "a"); (Class, "b")] Chain.new)))))
       = Normal (s +:+ ":hover").
Proof.
  destruct (stringify_after_call
              (snd (chain_calls [(Element, "a"); (Class, "b")] Chain.new))
              (snd (call PseudoClass "hover"
                      (snd (chain_calls [(Element, "a"); (Class, "b")] Chain.new))))
              PseudoClass "hover") as (s & Hs & Hs');
    [apply reachable_chain_calls, reachable_new|by vm_compute|].
  exists s. split; [done|]. by rewrite Hs'.
Defined.

(** A second call of a singleton category right after one that stored a
    non-empty fragment. *)
Lemma call_twice_throws c c1 k v w :
  singleton k = true -> wrap k v <> "" -> call k v c = (Normal c1, c1) ->
  call k w c1 = (Throw DuplicateCategoryError, c1).
Proof.
  intros Hs Hv Hcall.
  apply call_normal in Hcall as (_ & _ & _ & Hidx & Hsel & _).
  rewrite call_cases, Hidx, Z.ltb_irrefl, advance_id by done.
  unfold after_check. rewrite Hsel, lookup_insert_eq, Hs. cbn [andb].
  change ("" +:+ wrap k v) with (wrap k v). cbn [truthy].
  by destruct (String.eqb_spec (wrap k v) "").
Qed.

(** X4: a pseudo-element closes the chain.  After a [pseudoElement] call
    that returned, every further category call throws (the duplicate error
    for another pseudo-element, the ordering error for anything else) and
    leaves the chain as it is. *)
Theorem pseudoElement_closes_chain c c' v :
  call PseudoElement v c = (Normal c', c') ->
  forall k w,
    call k w c' =
      (Throw (if decide (k = PseudoElement) then DuplicateCategoryError
              else OrderViolationError), c').
Proof.
  intros Hcall k w. case_decide as Hk.
  - subst k. by eapply call_twice_throws.
  - apply call_normal in Hcall as (_ & _ & _ & Hidx & _).
    apply call_order_violation. rewrite Hidx. by destruct k.
Qed.

Lemma pseudoElement_closes_chain_witness :
  call Class "x" (snd (chain_calls [(Element, "p"); (PseudoElement, "after")] Chain.new))
  = (Throw OrderViolationError,
     snd (chain_calls [(Element, "p"); (PseudoElement, "after")] Chain.new)).
Proof.
  apply (pseudoElement_closes_chain (snd (Chain.element "p" Chain.new)) _ "after" eq_refl
           Class "x").
Defined.

(** X5: on a chain a program can hold, id and pseudo-element can be set at
    most once: as soon as the store has a key for one of them, every further
    call of that category throws and leaves the chain as it is, whatever
    the values and whatever was called in between. *)
Theorem id_pseudoElement_at_most_once c k v :
  reachable c -> k = Id \/ k = PseudoElement -> is_Some (selector c !! slot k) ->
  exists e, call k v c = (Throw e, c)
    /\ (e = DuplicateCategoryError \/ e = OrderViolationError).
Proof.
  intros Hc Hk [x Hx].
  assert (truthy (selector c !! slot k) = true) as Ht.
  { rewrite Hx. cbn. apply negb_true_iff, String.eqb_neq.
    eapply (reachable_nonempty c k); [done| |done]. by destruct Hk as [-> | ->]. }
  pose proof (reachable_inv c Hc) as Hinv.
  destruct (call_outcome k v c) as [[Hcall _]|[(Hcall & _)|(c' & _ & _ & _ & _ & Hf)]].
  - exists OrderViolationError. by auto.
  - exists DuplicateCategoryError. split; [|by auto].
    destruct (call_throw_state k v c DuplicateCategoryError Hinv) as [Hsame _];
      [by rewrite Hcall|].
    rewrite Hcall in Hsame |- *. cbn [snd] in Hsame. by rewrite Hsame.
  - rewrite Hf in Ht; [done|]. by destruct Hk as [-> | ->].
Qed.

Lemma id_pseudoElement_at_most_once_witness :
  exists e,
    call Id "again"
      (snd (chain_calls [(Id, "m"); (Class, "a"); (Attr, "b")] Chain.new))
    = (Throw e, snd (chain_calls [(Id, "m"); (Class, "a"); (Attr, "b")] Chain.new)).
Proof.
  destruct (id_pseudoElement_at_most_once
              (snd (chain_calls [(Id, "m"); (Class, "a"); (Attr, "b")] Chain.new))
              Id "again") as (e & He & _);
    [apply reachable_chain_calls, reachable_new|by left|vm_compute; by eexists|].
  by exists e.
Defined.

Lemma indexOf_from_absent (l : list string) (x : string) (i : Z) :
  x ∉ l -> indexOf_from l x i = (-1)%Z.
Proof.
  revert i. induction l as [|y l IH]; intros i Hx; [done|].
  apply not_elem_of_cons in Hx as [Hne Hx]. cbn [indexOf_from].
  destruct (decide (y = x)); [congruence|]. by apply IH.
Qed.

(** X15: [check] handed a name that is no category.  On a chain that has
    recorded a category it throws the ordering error; on a chain that has
    recorded none it returns.  Either way it changes nothing. *)
Theorem check_unknown_name (value : string) c :
  value ∉ Chain.check_list ->
  Chain.check value c =
    (if (0 <=? index_last c)%Z then Throw OrderViolationError else Normal tt, c).
Proof.
  intros Hv. rewrite check_unfold. cbn zeta. unfold indexOf at 1 2.
  rewrite (indexOf_from_absent _ _ _ Hv).
  assert (-1 <= index_last c)%Z as Hge.
  { unfold index_last, indexOf. destruct (last (order c)) as [x|]; [|done].
    destruct (decide (x ∈ Chain.check_list)) as [Hin|Hout].
    - repeat (apply elem_of_cons in Hin as [->|Hin]; [by vm_compute|]).
      by apply not_elem_of_nil in Hin.
    - by rewrite indexOf_from_absent. }
  destruct (Z.leb_spec 0 (index_last c)).
  - replace (-1 <? index_last c)%Z with true by (symmetry; apply Z.ltb_lt; lia). done.
  - cbn [andb]. replace (index_last c <? -1)%Z with false; [done|].
    symmetry. apply Z.ltb_ge. lia.
Qed.

Lemma check_unknown_name_witness :
  Chain.check "section" (snd (Chain.id "m" Chain.new))
  = (Throw OrderViolationError, snd (Chain.id "m" Chain.new)).
Proof.
  rewrite check_unknown_name; [done|]. by apply (bool_decide_unpack _); vm_compute.
Defined.

Lemma chain_calls_sufficient (l : list (category * string)) c :
  canonical_order l -> singletons_once l ->
  Forall (fun p => (index_last c <= index p.1)%Z) l ->
  (forall k, k ∈ l.*1 -> singleton k = true -> truthy (selector c !! slot k) = false) ->
  exists c', chain_calls l c = (Normal c', c').
Proof.
  unfold canonical_order, singletons_once.
  revert c. induction l as [|[k v] l IH]; intros c Hsorted Hnd Hfirst Hfree.
  { by exists c. }
  apply StronglySorted_inv in Hsorted as [Hsorted Hall].
  apply Forall_cons in Hfirst as [Hk _]. cbn [fst] in *.
  destruct (proj2 (call_returns_iff c k v)) as [c1 Hcall].
  { split; [done|]. apply Hfree. cbn. by left. }
  rewrite chain_calls_cons, Hcall.
  apply call_normal in Hcall as (_ & _ & _ & Hidx & Hsel & _).
  cbn [fmap list_fmap fst] in Hnd. rewrite filter_cons in Hnd.
  apply IH; [done| | |].
  - case_decide; [by apply NoDup_cons in Hnd as [_ ?]|done].
  - rewrite Hidx. done.
  - intros k' Hin Hs'. rewrite Hsel.
    destruct (decide (k = k')) as [<-|Hne].
    + exfalso. rewrite decide_True in Hnd by done.
      apply NoDup_cons in Hnd as [Hnot _]. apply Hnot.
      by apply list_elem_of_filter.
    + rewrite lookup_insert_ne by (intros Heq%slot_index_inj; done).
      apply Hfree; [|done]. cbn. by right.
Qed.

Lemma chain_calls_necessary (l : list (category * string)) c c' :
  Forall (fun p => p.1 = Element -> p.2 <> "") l ->
  chain_calls l c = (Normal c', c') ->
  canonical_order l /\ singletons_once l
  /\ Forall (fun p => (index_last c <= index p.1)%Z) l
  /\ (forall k, k ∈ l.*1 -> singleton k = true -> truthy (selector c !! slot k) = false).
Proof.
  unfold canonical_order, singletons_once.
  revert c. induction l as [|[k v] l IH]; intros c Hne Hrun.
  { split_and!; [constructor|constructor|constructor|]. by intros k ?%not_elem_of_nil. }
  apply Forall_cons in Hne as [Hv Hne]. cbn [fst snd] in Hv.
  rewrite chain_calls_cons in Hrun.
  destruct (call k v c) as [[c1|e] c2] eqn:Hcall; [|done].
  apply call_normal in Hcall as (-> & Hle & _ & Hidx & Hsel & Hfree).
  destruct (IH c2 Hne Hrun) as (Hsorted & Hnd & Hfirst & Hfree').
  rewrite Hidx in Hfirst.
  assert (singleton k = true -> k ∉ l.*1) as Hfresh.
  { intros Hs Hin. specialize (Hfree' k Hin Hs).
    rewrite Hsel, lookup_insert_eq, Hs in Hfree'.
    change ("" +:+ wrap k v) with (wrap k v) in Hfree'.
    rewrite wrap_nonempty in Hfree'; done. }
  split_and!.
  - constructor; [done|]. eapply Forall_impl; [exact Hfirst|]. by intros [k' v'].
  - cbn [fmap list_fmap fst]. rewrite filter_cons. case_decide as Hs; [|done].
    constructor; [|done]. intros [_ Hin]%list_elem_of_filter. by apply Hfresh.
  - constructor; [done|]. eapply Forall_impl; [exact Hfirst|].
    intros p Hp. cbn beta in Hp |- *. lia.
  - intros k' Hin Hs'. cbn in Hin. apply elem_of_cons in Hin as [->|Hin]; [by apply Hfree|].
    specialize (Hfree' k' Hin Hs'). rewrite Hsel in Hfree'.
    destruct (decide (k = k')) as [<-|Hne']; [by destruct (Hfresh Hs')|].
    by rewrite lookup_insert_ne in Hfree' by (intros Heq%slot_index_inj; done).
Qed.

(** X6: which fluent chains of calls go through.  Started on a fresh
    chain, with no empty element name, a sequence of category calls returns
    exactly when it is in canonical order (indices never decrease) and calls
    element, id and pseudo-element at most once each. *)
Theorem chain_calls_succeed_iff (l : list (category * string)) :
  Forall (fun p => p.1 = Element -> p.2 <> "") l ->
  (exists c, chain_calls l Chain.new = (Normal c, c))
  <-> canonical_order l /\ singletons_once l.
Proof.
  intros Hne. split.
  - intros [c Hrun]. by destruct (chain_calls_necessary l Chain.new c Hne Hrun) as (? & ? & _).
  - intros [Hsorted Hnd]. apply chain_calls_sufficient; [done|done| |done].
    apply Forall_forall. intros [k v] _. cbn [fst].
    change (index_last Chain.new) with (-1)%Z. pose proof (index_bounds k). lia.
Qed.

Lemma chain_calls_succeed_iff_witness :
  (exists c, chain_calls [(Element, "div"); (Class, "a"); (Class, "b"); (PseudoElement, "x")]
               Chain.new = (Normal c, c))
  /\ canonical_order [(Id, "m"); (Class, "a")].
Proof.
  split.
  - apply chain_calls_succeed_iff.
    + repeat constructor; by intros.
    + split; [|by apply (bool_decide_unpack _); vm_compute].
      unfold canonical_order. repeat (constructor; [|repeat constructor; by vm_compute]).
      constructor.
  - apply (chain_calls_succeed_iff [(Id, "m"); (Class, "a")]).
    + repeat constructor; by intros.
    + by eexists.
Defined.

End chain_further.

(** * Further properties of the facade *)

Section facade_further.

Lemma facade_call_eq (k : category) (v : string) :
  facade_call k v = fst (call k v Chain.new).
Proof. by destruct k. Qed.

(** X7: the six entry points of the facade never throw: each returns a
    new chain whose store holds the text of the call under its category and
    nothing else, whose record is that category, and whose [stringify()]
    returns that text. *)
Theorem facade_call_returns (k : category) (v : string) :
  exists c, facade_call k v = Normal c
    /\ selector c = {[slot k := wrap k v]}
    /\ order c = [name k]
    /\ reachable c
    /\ Chain.stringify c = (Normal (wrap k v), c).
Proof.
  rewrite facade_call_eq.
  destruct (proj2 (call_returns_iff Chain.new k v)) as [c Hcall].
  { split; [|done]. change (index_last Chain.new) with (-1)%Z.
    pose proof (index_bounds k). lia. }
  exists c. rewrite Hcall. split; [done|].
  assert (reachable c) as Hc.
  { replace c with (snd (call k v Chain.new)) by (by rewrite Hcall). apply reachable_call, reachable_new. }
  destruct (stringify_after_call Chain.new c k v reachable_new Hcall) as (s & Hs & Hs').
  apply call_normal in Hcall as (_ & _ & Ho & _ & Hsel & _).
  split_and!; [|by rewrite Ho; destruct k|done|].
  - rewrite Hsel. cbn [selector Chain.new]. rewrite insert_empty. f_equal.
    unfold fragment. cbn [selector Chain.new]. rewrite lookup_empty. by destruct (singleton k).
  - rewrite Hs'. by injection Hs as <-.
Qed.

Lemma combine_unfold (selector1 selector2 : operand) (combinator : option string)
    (f : cssSelectorBuilder) :
  Facade.combine selector1 combinator selector2 f =
    (Normal OFacade,
     mkFacade (operand_pieces selector1 ++ token_pieces combinator
               ++ operand_pieces selector2 ++ combiner f)).
Proof.
  unfold Facade.combine, Facade.unshift, mbind, method_bind.
  cbn zeta. unfold mret, method_ret. do 2 f_equal.
  destruct selector1, combinator as [t|], selector2;
    cbn [operand_selector truthy operand_pieces token_pieces option_list app];
    try destruct (String.eqb t ""); cbn [negb app];
    by rewrite <- ?app_assoc.
Qed.

Lemma combine_calls_pending (l : list (operand * option string * operand))
    (f : cssSelectorBuilder) :
  combine_calls l f =
    (Normal OFacade, mkFacade (concat (combine_pieces <$> rev l) ++ combiner f)).
Proof.
  revert f. induction l as [|[[a t] b] l IH]; intros f; [by destruct f|].
  cbn [combine_calls]. unfold mbind at 1, method_bind at 1.
  rewrite combine_unfold, IH. cbn [combiner rev].
  rewrite fmap_app, concat_app. cbn [fmap list_fmap concat].
  rewrite app_nil_r. change (combine_pieces (a, t, b))
    with (operand_pieces a ++ token_pieces t ++ operand_pieces b).
  by rewrite <- !app_assoc.
Qed.

(** X8: the pending sequence is shared by all [combine] calls on the
    facade.  After any successive calls it holds the pieces of the latest
    call first and those of the earliest last, in front of what was pending
    before; [stringify()] returns them all joined by single spaces, and a
    second [stringify()] right after returns the empty string. *)
Theorem combine_calls_accumulate (l : list (operand * option string * operand))
    (f : cssSelectorBuilder) :
  combine_calls l f =
    (Normal OFacade, mkFacade (concat (combine_pieces <$> rev l) ++ combiner f))
  /\ (combine_calls l ;; Facade.stringify) f =
      (Normal (join " " (concat (combine_pieces <$> rev l) ++ combiner f)), mkFacade [])
  /\ (combine_calls l ;; Facade.stringify ;; Facade.stringify) f
      = (Normal "", mkFacade []).
Proof.
  split_and!; [apply combine_calls_pending|..];
    unfold mbind at 1, method_bind at 1; by rewrite combine_calls_pending.
Qed.

Lemma evaluate_pushed (e : selector_expr) (f : cssSelectorBuilder) :
  evaluate e f = (Normal (operand_of e), mkFacade (pushed e ++ combiner f)).
Proof.
  revert f. induction e as [c|lhs IHl token rhs IHr]; intros f; [by destruct f|].
  cbn [evaluate]. unfold mbind, method_bind.
  rewrite IHl, IHr, combine_unfold. cbn [combiner pushed operand_of].
  by rewrite <- !app_assoc.
Qed.

(** X9: how nested [combine] calls compose.  Whatever the nesting, after
    the whole expression is evaluated the pending sequence starts with the
    pieces of the outermost call, followed by everything its right argument
    pushed, then everything its left argument pushed.  So when the left
    argument is itself a [combine], its pieces come last:
    [combine(combine(a, t1, b), t2, c)] is rendered as t2, c, a, t1, b. *)
Theorem nested_combine_pending :
  (forall e f,
     evaluate e f = (Normal (operand_of e), mkFacade (pushed e ++ combiner f)))
  /\ (forall a b c t1 t2 f,
       (evaluate (SCombine (SCombine (SChain a) t1 (SChain b)) t2 (SChain c)) ;;
        Facade.stringify) f
       = (Normal (join " " (token_pieces t2 ++ operand_pieces (OChain c)
                            ++ operand_pieces (OChain a) ++ token_pieces t1
                            ++ operand_pieces (OChain b) ++ combiner f)),
          mkFacade [])).
Proof.
  split; [apply evaluate_pushed|].
  intros a b c t1 t2 f. unfold mbind at 1, method_bind at 1.
  rewrite evaluate_pushed. unfold Facade.stringify, mbind, method_bind, get, put, mret, method_ret.
  cbn [combiner pushed operand_of operand_pieces app]. do 3 f_equal.
  rewrite <- !app_assoc. cbn [app]. by rewrite <- !app_assoc.
Qed.

Lemma pushed_right_nested (items : list (NEWcssSelectorBuilder * option string))
    (last : NEWcssSelectorBuilder) :
  items <> [] -> pushed (right_nested items last) = reading_order items last.
Proof.
  unfold reading_order. induction items as [|[c t] [|it items] IH]; [done| |]; intros _.
  - cbn. by rewrite !app_nil_r.
  - specialize (IH ltac:(done)).
    change (right_nested ((c, t) :: it :: items) last)
      with (SCombine (SChain c) t (right_nested (it :: items) last)).
    cbn [pushed]. rewrite IH.
    change (operand_of (right_nested (it :: items) last)) with OFacade.
    cbn [operand_of operand_pieces fmap list_fmap concat fst snd app].
    rewrite app_nil_r. f_equal. rewrite <- !app_assoc. cbn [app].
    by rewrite <- !app_assoc.
Qed.

(** X10: the documented way of nesting, [combine(c1, t1, combine(c2, t2,
    ... combine(cn, tn, last)))], renders in reading order: started with
    nothing pending, [stringify()] returns the chains and the tokens in the
    order they are written, joined by single spaces. *)
Theorem right_nested_reading_order (items : list (NEWcssSelectorBuilder * option string))
    (last : NEWcssSelectorBuilder) :
  items <> [] ->
  (evaluate (right_nested items last) ;; Facade.stringify) Facade.initial
  = (Normal (join " " (reading_order items last)), mkFacade []).
Proof.
  intros Hne. unfold mbind at 1, method_bind at 1.
  rewrite evaluate_pushed, pushed_right_nested by done.
  unfold Facade.stringify, mbind, method_bind, get, put, mret, method_ret.
  cbn [combiner Facade.initial]. by rewrite app_nil_r.
Qed.

Lemma right_nested_reading_order_witness :
  fst ((evaluate
          (right_nested
             [(snd (chain_calls [(Element, "div"); (Id, "main")] Chain.new), Some "+");
              (snd (chain_calls [(Element, "table")] Chain.new), Some "~")]
             (snd (chain_calls [(Element, "tr")] Chain.new))) ;;
        Facade.stringify) Facade.initial)
  = Normal "div#main + table ~ tr".
Proof.
  rewrite right_nested_reading_order by done. by vm_compute.
Defined.

End facade_further.

(** * Further properties of the JSON helpers *)

Section json_further.





(** X11: a boolean, a number other than minus zero or a string survives
    the round trip unchanged: [fromJSON(Proto, getJSON(x))] returns x itself,
    whatever the number (integer or not, of any magnitude) and whatever the
    string holds (quotes, backslashes, control characters, lone
    surrogates), and attaches nothing. *)
Theorem primitive_round_trip (x : value) (Proto : prototype) (h : heap) :
  is_primitive x = true -> representable x = true ->
  fromJSON Proto (getJSON x) h = (Normal x, h).
Proof.
  intros Hprim Hrep. rewrite fromJSON_unfold. unfold getJSON.
  rewrite (parse_stringify x Hrep) by (by destruct x). by destruct x.
Qed.

Lemma primitive_round_trip_witness :
  fromJSON (ObjectRef 3) (getJSON (VString [34; 92; 10; 55357; 97]%N)) []
    = (Normal (VString [34; 92; 10; 55357; 97]%N), [])
  /\ fromJSON (ObjectRef 3) (getJSON (VNumber (mkNumber (-125) (-9)))) []
    = (Normal (VNumber (mkNumber (-125) (-9))), []).
Proof. split; by apply primitive_round_trip. Defined.

(** X12: the outcomes of [fromJSON].  It throws the parse error exactly on
    the texts that are not valid JSON, a [TypeError] exactly on the texts
    that parse to [null], and otherwise returns the parsed value, on the
    prototype [Proto] when it is an object or an array, with the fields the
    text gave it and nothing attached below the top. *)
Theorem fromJSON_outcomes (Proto : prototype) (json : list N) (h : heap) :
  (fst (fromJSON Proto json h) = Throw SyntaxError <-> ~ valid_JSON json)
  /\ (fst (fromJSON Proto json h) = Throw TypeError <-> JSON.parse json = Normal VNull)
  /\ (forall e, fst (fromJSON Proto json h) = Throw e -> e = SyntaxError \/ e = TypeError)
  /\ (forall y, fst (fromJSON Proto json h) = Normal y ->
       exists v, JSON.parse json = Normal v /\ y = with_prototype Proto v
         /\ own_fields y = own_fields v).
Proof.
  assert (forall e, JSON.parse json = Throw e -> e = SyntaxError) as Hthrow.
  { unfold JSON.parse. intros e. repeat case_match; congruence. }
  rewrite fromJSON_unfold, parse_invalid.
  destruct (JSON.parse json) as [v|e] eqn:Hparse.
  - destruct v as [|b|n|s|proto l|proto fs]; cbn [fst];
      (split_and!; [split; congruence|split; congruence|intros e [= <-]; auto|]);
      intros y [= <-]; try done; by eexists.
  - rewrite (Hthrow e eq_refl). cbn [fst].
    split_and!; [done|split; congruence|intros e' [= <-]; auto|done].
Qed.

Lemma fromJSON_outcomes_witness :
  fst (fromJSON (ObjectRef 3) (units "nul") []) = Throw SyntaxError.
Proof.
  apply (proj1 (fromJSON_outcomes (ObjectRef 3) (units "nul") [])).
  apply parse_invalid. by vm_compute.
Defined.





End json_further.
